(** * A shallow embedding of the reactive core of [vue.js]

    The development models the dependency-tracking engine of the file
    [src/vue.js]: [observe] / [defineReactive] (property interception),
    [Dep] (subscriber sets), [Watcher] (observers) and the two dotted-path
    helpers [getValue] / [setValue].

    JavaScript objects live in a heap and are referred to by address, so
    that aliasing and in-place property redefinition are visible.  Every
    call of [defineReactive] creates one closure holding the variables
    [key], [value] and [dep]; such a closure is a [cell], and the accessor
    property installed by [Object.defineProperty] points to it. *)

From Stdlib Require Import ZArith Ascii String.
From stdpp Require Import base option list strings.

Open Scope string_scope.

(** ** Values and objects *)

(** Objects, closures and watchers are referred to by their allocation
    index. *)
Abbreviation addr := nat (only parsing).
Abbreviation dep_id := nat (only parsing).
Abbreviation wid := nat (only parsing).

(** The data tree holds primitives and plain objects.  Numbers are the
    integers together with [NaN] (the one number that is not [===] to
    itself); [VNative] stands for a built-in object or function reached
    through a prototype, under its name.  Arrays are outside the model. *)
Inductive value :=
| VUndef
| VNull
| VBool (b : bool)
| VNum (n : Z)
| VNaN
| VStr (t : string)
| VObj (a : addr)
| VNative (name : string).

(** An own property is either a plain data property or the accessor pair
    installed by [defineReactive], identified by its closure. *)
Inductive prop :=
| PData (v : value)
| PAccessor (d : dep_id).

(** Own enumerable properties, in the order of [Object.keys]. *)
Abbreviation object := (list (string * prop)) (only parsing).

(** The closure of one [defineReactive] call: the parameters [key] and
    [value] and the [subs] set of its [dep], in insertion order. *)
Record cell := Cell { c_key : string; c_value : value; c_subs : list wid }.

(** What a callback [cb] may do to the core.  The callbacks of the
    repository ([updateText], [updateValue]) only read. *)
#[warnings="-register-all"]
Inductive action :=
| ARead (data : value) (path : string)
| AWrite (data : value) (path : string) (v : value)
| AWatch (data : value) (exp : string) (cb : list action).

(** A [Watcher] instance; [w_data] is the [$data] of its [vm]. *)
Record watcher := Watcher { w_data : value; w_exp : string; w_cb : list action }.

(** [target] is the static field [Dep.target] ([None] for [null] and for
    the initial [undefined]); [console] collects the arguments of the
    [console.log] call of the setter and [calls] the invocations of
    callbacks with the value they received, both oldest first. *)
Record state := State {
  heap : list object;
  cells : list cell;
  watchers : list watcher;
  target : option wid;
  console : list (string * value * value);
  calls : list (wid * value)
}.

Definition with_heap (h : list object) (s : state) : state :=
  State h (cells s) (watchers s) (target s) (console s) (calls s).
Definition with_cells (c : list cell) (s : state) : state :=
  State (heap s) c (watchers s) (target s) (console s) (calls s).
Definition with_watchers (w : list watcher) (s : state) : state :=
  State (heap s) (cells s) w (target s) (console s) (calls s).
Definition with_target (t : option wid) (s : state) : state :=
  State (heap s) (cells s) (watchers s) t (console s) (calls s).
Definition with_console (l : list (string * value * value)) (s : state) : state :=
  State (heap s) (cells s) (watchers s) (target s) l (calls s).
Definition with_calls (l : list (wid * value)) (s : state) : state :=
  State (heap s) (cells s) (watchers s) (target s) (console s) l.

Definition props_of (s : state) (a : addr) : object := default [] (heap s !! a).
Definition cell_of (s : state) (d : dep_id) : cell :=
  default (Cell "" VUndef []) (cells s !! d).
Definition subs_of (s : state) (d : dep_id) : list wid := c_subs (cell_of s d).

(** ** Outcomes *)

Inductive exn : Set := TypeError.

Inductive outcome (A : Type) :=
| Ret (x : A) (s : state)
| Throw (e : exn) (s : state)
| OutOfFuel.
Arguments Ret {A} x s.
Arguments Throw {A} e s.
Arguments OutOfFuel {A}.

Definition M (A : Type) := state -> outcome A.

Definition ret {A} (x : A) : M A := fun s => Ret x s.
Definition bind {A B} (m : M A) (f : A -> M B) : M B :=
  fun s => match m s with
           | Ret x s' => f x s'
           | Throw e s' => Throw e s'
           | OutOfFuel => OutOfFuel
           end.

Notation "'let*' x := m 'in' f" := (bind m (fun x => f))
  (at level 10, x name, m at level 100, f at level 200).
Notation "m >> f" := (bind m (fun _ => f))
  (at level 100, f at level 200, right associativity).

(** [list.forEach(f)] *)
Fixpoint forEach {A} (l : list A) (f : A -> M unit) : M unit :=
  match l with
  | [] => ret tt
  | x :: r => f x >> forEach r f
  end.

(** ** Strings and keys *)

(** [path.split('.')]: never empty. *)
Fixpoint split_dot (p : string) : list string :=
  match p with
  | EmptyString => [EmptyString]
  | String c r =>
      if Ascii.eqb c "."%char then EmptyString :: split_dot r
      else match split_dot r with
           | h :: t => String c h :: t
           | [] => [String c EmptyString]
           end
  end.

Fixpoint own_prop (k : string) (o : object) : option prop :=
  match o with
  | [] => None
  | (k', p) :: r => if String.eqb k' k then Some p else own_prop k r
  end.

(** Redefinition keeps the position of an existing key; a new key goes to
    the end. *)
Fixpoint define_prop (k : string) (p : prop) (o : object) : object :=
  match o with
  | [] => [(k, p)]
  | (k', p') :: r =>
      if String.eqb k' k then (k', p) :: r else (k', p') :: define_prop k p r
  end.

(** [x === y] *)
Definition strict_eq (x y : value) : bool :=
  match x, y with
  | VUndef, VUndef => true
  | VNull, VNull => true
  | VBool a, VBool b => Bool.eqb a b
  | VNum a, VNum b => Z.eqb a b
  | VStr a, VStr b => String.eqb a b
  | VObj a, VObj b => Nat.eqb a b
  | VNative a, VNative b => String.eqb a b
  | _, _ => false
  end.

Definition is_primitive (v : value) : bool :=
  match v with
  | VObj _ | VNative _ => false
  | _ => true
  end.

(** What calling a built-in gives. *)
Inductive call_result :=
| NotCallable
| Returns (v : value)
| Raises.

(** The decimal numeral of an array index: digits, without a leading
    zero. *)
Definition digit_of (c : ascii) : option nat :=
  let n := nat_of_ascii c in
  if Nat.leb 48 n && Nat.leb n 57 then Some (n - 48) else None.

Fixpoint digits_value (acc : nat) (k : string) : option nat :=
  match k with
  | EmptyString => Some acc
  | String c r =>
      match digit_of c with
      | Some n => digits_value (10 * acc + n) r
      | None => None
      end
  end.

Definition array_index (k : string) : option nat :=
  match k with
  | EmptyString => None
  | String c EmptyString => digit_of c
  | String c _ => if Ascii.eqb c "0"%char then None else digits_value 0 k
  end.

(** [t[i]] *)
Fixpoint char_at (t : string) (i : nat) : option value :=
  match t, i with
  | EmptyString, _ => None
  | String c _, 0 => Some (VStr (String c EmptyString))
  | String _ r, S j => char_at r j
  end.

(** A table of the members an engine of ECMAScript 2023 (with its
    Annex B) finds through prototypes.  Built-ins go by their qualified
    name, so that two of them are [===] exactly when they have the same
    name: [Object.prototype.toString] is a function, [Object.prototype]
    the prototype object itself, [Object] the constructor.  For a
    built-in function as receiver the members of [Function.prototype] and
    [Object.prototype] are listed; its own [name] and [length] and the
    accessors [caller] and [arguments] are not. *)
Definition object_prototype : list string :=
  ["hasOwnProperty"; "isPrototypeOf"; "propertyIsEnumerable";
   "toLocaleString"; "toString"; "valueOf";
   "__defineGetter__"; "__defineSetter__"; "__lookupGetter__"; "__lookupSetter__"].

Definition number_prototype : list string :=
  ["toExponential"; "toFixed"; "toLocaleString"; "toPrecision"; "toString";
   "valueOf"].

Definition boolean_prototype : list string := ["toString"; "valueOf"].

Definition string_prototype : list string :=
  ["at"; "charAt"; "charCodeAt"; "codePointAt"; "concat"; "endsWith";
   "includes"; "indexOf"; "isWellFormed"; "lastIndexOf"; "localeCompare";
   "match"; "matchAll"; "normalize"; "padEnd"; "padStart"; "repeat";
   "replace"; "replaceAll"; "search"; "slice"; "split"; "startsWith";
   "substring"; "toLocaleLowerCase"; "toLocaleUpperCase"; "toLowerCase";
   "toString"; "toUpperCase"; "toWellFormed"; "trim"; "trimEnd"; "trimStart";
   "valueOf"; "substr"; "anchor"; "big"; "blink"; "bold"; "fixed";
   "fontcolor"; "fontsize"; "italics"; "link"; "small"; "strike"; "sub";
   "sup"; "trimLeft"; "trimRight"].

Definition function_prototype : list string :=
  ["apply"; "bind"; "call"; "toString"].

(** The constructor of a value that has a prototype. *)
Definition class_of (o : value) : option string :=
  match o with
  | VUndef | VNull => None
  | VBool _ => Some "Boolean"
  | VNum _ | VNaN => Some "Number"
  | VStr _ => Some "String"
  | VObj _ => Some "Object"
  | VNative _ => Some "Function"
  end.

Definition methods_of (class : string) : list string :=
  if String.eqb class "Number" then number_prototype
  else if String.eqb class "Boolean" then boolean_prototype
  else if String.eqb class "String" then string_prototype
  else if String.eqb class "Function" then function_prototype
  else [].

(** The members every value with a prototype has, the nearest prototype
    first. *)
Definition inherited (class : string) (k : string) : option value :=
  if String.eqb k "__proto__" then Some (VNative (class ++ ".prototype"))
  else if String.eqb k "constructor" then Some (VNative class)
  else if existsb (String.eqb k) (methods_of class)
  then Some (VNative (class ++ ".prototype." ++ k))
  else if existsb (String.eqb k) object_prototype
  then Some (VNative ("Object.prototype." ++ k))
  else None.

(** The class whose prototype object a built-in is, if it is one. *)
Definition prototype_class (name : string) : option string :=
  List.find (fun class => String.eqb name (class ++ ".prototype"))
    ["Object"; "Number"; "Boolean"; "String"; "Function"].

(** The members of a prototype object: its own, then those of
    [Object.prototype], where the chain ends. *)
Definition prototype_member (class : string) (k : string) : option value :=
  if String.eqb k "__proto__"
  then Some (if String.eqb class "Object" then VNull else VNative "Object.prototype")
  else if String.eqb class "String" && String.eqb k "length" then Some (VNum 0)
  else inherited class k.

Definition es_proto (o : value) (k : string) : option value :=
  match o, class_of o with
  | VStr t, Some class =>
      if String.eqb k "length" then Some (VNum (Z.of_nat (String.length t)))
      else match array_index k ≫= char_at t with
           | Some c => Some c
           | None => inherited class k
           end
  | VNative name, Some class =>
      match prototype_class name with
      | Some c => prototype_member c k
      | None => inherited class k
      end
  | _, Some class => inherited class k
  | _, None => None
  end.

(** What the built-ins that a string conversion of plain data reaches
    give when they are called on an object: [Object.prototype.toString]
    a text, [Object.prototype.valueOf] the object itself, and
    [Function.prototype.toString] the text of the function.  The
    prototypes are objects, not functions, except [Function.prototype],
    which returns [undefined].  The other built-ins are not described:
    the table answers [Raises] for them, and no lemma of this file rests
    on that answer. *)
Definition es_native (f : string) (o : value) : call_result :=
  if String.eqb f "Object.prototype.toString" then Returns (VStr "[object Object]")
  else if String.eqb f "Function.prototype.toString"
  then Returns (VStr "function () { [native code] }")
  else if String.eqb f "Object.prototype.valueOf" then Returns o
  else if String.eqb f "Function.prototype" then Returns VUndef
  else if existsb (String.eqb f)
            ["Object.prototype"; "Number.prototype"; "Boolean.prototype";
             "String.prototype"]
  then NotCallable
  else Raises.

Section Reactive.

(** What a read of a key that is not an own property of an object finds
    through the prototype chain, and what a read on a primitive receiver
    finds (for a string also its [length] and characters); [None] when
    there is nothing, and the read gives [undefined].  The table belongs
    to the engine, not to [vue.js]. *)
Variable proto_get : value -> string -> option value.

(** What the call [f.call(o)] of the built-in named [f] on the object [o]
    gives.  The core calls a built-in in one place only, the conversion of
    a value to the text of the setter's message; the built-ins reached
    there ([toString], [valueOf]) do not touch the data. *)
Variable native_call : string -> value -> call_result.

(** ** Dep *)

(** [this.subs.add(sub)] *)
Definition addSub (w : wid) (subs : list wid) : list wid :=
  if decide (w ∈ subs) then subs else subs ++ [w].

Definition Dep_addSub (d : dep_id) (w : wid) (s : state) : state :=
  with_cells
    (alter (fun c => Cell (c_key c) (c_value c) (addSub w (c_subs c))) d (cells s)) s.

(** ** The accessor pair of [defineReactive] *)

(** [get() { Dep.target && dep.addSub(Dep.target); return value; }] *)
Definition reactive_get (d : dep_id) : M value :=
  fun s =>
    let s' := match target s with
              | Some w => Dep_addSub d w s
              | None => s
              end in
    Ret (c_value (cell_of s d)) s'.

(** [o[k]].  A read throws on [undefined] and [null] only; the two
    accessors [caller] and [arguments] that a built-in function inherits
    and that throw are not modelled. *)
Definition get_prop (o : value) (k : string) : M value :=
  fun s =>
    match o with
    | VUndef | VNull => Throw TypeError s
    | VObj a =>
        match own_prop k (props_of s a) with
        | Some (PData v) => Ret v s
        | Some (PAccessor d) => reactive_get d s
        | None => Ret (default VUndef (proto_get o k)) s
        end
    | _ => Ret (default VUndef (proto_get o k)) s
    end.

(** [keys.reduce((o, k) => o[k], obj)] *)
Fixpoint reduce_get (ks : list string) (o : value) : M value :=
  match ks with
  | [] => ret o
  | k :: r => let* x := get_prop o k in reduce_get r x
  end.

Definition getValue (obj : value) (path : string) : M value :=
  reduce_get (split_dot path) obj.

(** ** observe and defineReactive *)

Definition new_Dep (key : string) (v : value) : M dep_id :=
  fun s => Ret (length (cells s)) (with_cells (cells s ++ [Cell key v []]) s).

Definition defineProperty (a : addr) (key : string) (p : prop) : M unit :=
  fun s => Ret tt (with_heap (alter (define_prop key p) a (heap s)) s).

Definition defineReactive (observe_rec : value -> M unit)
    (a : addr) (key : string) (v : value) : M unit :=
  let* d := new_Dep key v in
  observe_rec v >>
  defineProperty a key (PAccessor d).

(** The fuel bounds the nesting depth of the recursion. *)
Fixpoint observe (fuel : nat) (obj : value) : M unit :=
  match obj with
  | VObj a =>
      match fuel with
      | 0 => fun _ => OutOfFuel
      | S f =>
          fun s =>
            forEach (map fst (props_of s a))
              (fun key => let* v := get_prop obj key in defineReactive (observe f) a key v) s
      end
  | _ => ret tt
  end.

(** ** Writes *)

(** [`${v}`], the conversion [ToString(v)] of a template literal, as far
    as the core can see it: a primitive always has a text; for an object
    the methods [toString] and then [valueOf] are read from it, which
    runs a getter when the object has a tracked slot of that name, and
    called when they are functions, until one call gives a primitive;
    when none does, the conversion throws a [TypeError].  The text itself
    is not kept.  Plain objects have no [Symbol.toPrimitive]. *)
Definition try_method (o : value) (name : string) : M (option value) :=
  let* m := get_prop o name in
  fun s =>
    match m with
    | VNative f =>
        match native_call f o with
        | Returns r => Ret (if is_primitive r then Some r else None) s
        | NotCallable => Ret None s
        | Raises => Throw TypeError s
        end
    | _ => Ret None s
    end.

Definition ToString (v : value) : M unit :=
  if is_primitive v then ret tt
  else
    let* r := try_method v "toString" in
    match r with
    | Some _ => ret tt
    | None =>
        let* r' := try_method v "valueOf" in
        match r' with
        | Some _ => ret tt
        | None => fun s => Throw TypeError s
        end
    end.

(** The conversions that the message
    [`属性 ${key} 更新: ${value} => ${newVal}`] of the setter asks for: the
    stored value, then the new one ([key] is a string). *)
Definition message (d : dep_id) (newVal : value) : M unit :=
  fun s => (ToString (c_value (cell_of s d)) >> ToString newVal) s.

(** [console.log(...)] with the message already built. *)
Definition console_log (key : string) (old new : value) (s : state) : state :=
  with_console (console s ++ [(key, old, new)]) s.

Definition store (d : dep_id) (v : value) (s : state) : state :=
  with_cells (alter (fun c => Cell (c_key c) v (c_subs c)) d (cells s)) s.

(** [set(newVal)] of the accessor pair, over the recursive calls it
    makes.  The message is built before anything is stored, and a
    conversion that throws ends the write there. *)
Definition setter (observe_f : value -> M unit) (notify_f : dep_id -> M unit)
    (d : dep_id) (newVal : value) : M unit :=
  fun s =>
    let c := cell_of s d in
    if strict_eq newVal (c_value c) then Ret tt s
    else
      (message d newVal >>
       fun s1 =>
         (observe_f newVal >> notify_f d)
           (store d newVal (console_log (c_key c) (c_value c) newVal s1))) s.

(** [o[k] = v].  [vue.js] is a classic script, so the assignments of
    [setValue] run in sloppy mode: a write to a primitive is dropped.  A
    key that is not an own property becomes a plain data property, kept
    here at the end of the object.  Three things are outside this
    definition, and the statements about plain writes exclude them: a key
    the object inherits (the setter of [__proto__] changes the prototype
    instead), the place of an integer-like key in the enumeration (before
    the other keys), and properties stored on a built-in function. *)
Definition put_prop (set_f : dep_id -> value -> M unit)
    (o : value) (k : string) (v : value) : M unit :=
  fun s =>
    match o with
    | VUndef | VNull => Throw TypeError s
    | VObj a =>
        match own_prop k (props_of s a) with
        | Some (PAccessor d) => set_f d v s
        | _ => defineProperty a k (PData v) s
        end
    | _ => Ret tt s
    end.

Definition setValue_with (assign : value -> string -> value -> M unit)
    (obj : value) (path : string) (newVal : value) : M unit :=
  let keys := split_dot path in
  let lastKey := List.last keys "" in
  let* target_obj := reduce_get (removelast keys) obj in
  assign target_obj lastKey newVal.

(** ** Watcher *)

Definition Watcher_new (data : value) (exp : string) (cb : list action) : M wid :=
  fun s =>
    let w := length (watchers s) in
    let s1 := with_target (Some w) (with_watchers (watchers s ++ [Watcher data exp cb]) s) in
    (getValue data exp >> (fun s2 => Ret w (with_target None s2))) s1.

Definition run_action (assign : value -> string -> value -> M unit)
    (act : action) : M unit :=
  match act with
  | ARead data path => getValue data path >> ret tt
  | AWrite data path v => setValue_with assign data path v
  | AWatch data exp cb => Watcher_new data exp cb >> ret tt
  end.

Definition record_call (w : wid) (v : value) : M unit :=
  fun s => Ret tt (with_calls (calls s ++ [(w, v)]) s).

(** [update() { this.cb(getValue(this.vm.$data, this.exp)); }]; calling
    [update] on something that is not a watcher is a [TypeError]. *)
Definition Watcher_update (assign : value -> string -> value -> M unit)
    (w : wid) : M unit :=
  fun s =>
    match watchers s !! w with
    | None => Throw TypeError s
    | Some W =>
        (let* v := getValue (w_data W) (w_exp W) in
         record_call w v >>
         forEach (w_cb W) (run_action assign)) s
    end.

(** [this.subs.forEach(sub => sub.update())]: [Set.prototype.forEach]
    walks the entries in insertion order and reaches entries that are
    added while it runs. *)
Fixpoint notify_from (update : wid -> M unit) (fuel : nat) (d : dep_id) (i : nat)
    : M unit :=
  fun s =>
    match subs_of s d !! i with
    | None => Ret tt s
    | Some w =>
        match fuel with
        | 0 => OutOfFuel
        | S f => (update w >> notify_from update f d (S i)) s
        end
    end.

Definition Dep_notify (update : wid -> M unit) (fuel : nat) (d : dep_id) : M unit :=
  notify_from update fuel d 0.

(** ** Tying the knot *)

Fixpoint reactive_set (fuel : nat) (d : dep_id) (newVal : value) : M unit :=
  match fuel with
  | 0 => fun _ => OutOfFuel
  | S f =>
      setter (observe f)
        (Dep_notify (Watcher_update (put_prop (reactive_set f))) f) d newVal
  end.

Definition assign (fuel : nat) : value -> string -> value -> M unit :=
  put_prop (reactive_set fuel).

Definition setValue (fuel : nat) : value -> string -> value -> M unit :=
  setValue_with (assign fuel).

Definition update (fuel : nat) : wid -> M unit := Watcher_update (assign fuel).

Definition notify (fuel : nat) : dep_id -> M unit := Dep_notify (update fuel) fuel.

(** The value the [update] of watcher [w] reads in state [s], when its
    path resolves there. *)
Definition reread (s : state) (w : wid) : option value :=
  match watchers s !! w with
  | Some W =>
      match getValue (w_data W) (w_exp W) s with
      | Ret v _ => Some v
      | _ => None
      end
  | None => None
  end.

(** The calls made when each of the watchers [ws] is updated once, in
    order, in state [s]. *)
Definition reports (s : state) (ws : list wid) : list (wid * value) :=
  map (fun w => (w, default VUndef (reread s w))) ws.

End Reactive.

(** ** Reading the state *)

(** The value a property holds, without running its getter. *)
Definition slot_value (s : state) (p : prop) : value :=
  match p with
  | PData v => v
  | PAccessor d => c_value (cell_of s d)
  end.

Definition keys_of (s : state) (a : addr) : list string := map fst (props_of s a).

Definition child (s : state) (a : addr) (k : string) : value :=
  match own_prop k (props_of s a) with
  | Some p => slot_value s p
  | None => VUndef
  end.

(** The property [k] of object [a] is a tracked slot with closure [d]. *)
Definition tracked (s : state) (a : addr) (k : string) (d : dep_id) : Prop :=
  own_prop k (props_of s a) = Some (PAccessor d) /\ d < length (cells s).

Definition is_tracked (s : state) (a : addr) (k : string) : bool :=
  match own_prop k (props_of s a) with
  | Some (PAccessor d) => Nat.ltb d (length (cells s))
  | _ => false
  end.

(** The objects below [v] form a tree of height at most [n]. *)
Fixpoint bounded (n : nat) (s : state) (v : value) : bool :=
  match v with
  | VObj a =>
      match n with
      | 0 => false
      | S m => forallb (fun k => bounded m s (child s a k)) (keys_of s a)
      end
  | _ => true
  end.

(** Every property of every object below [v] is a tracked slot. *)
Fixpoint tracked_below (n : nat) (s : state) (v : value) : bool :=
  match v with
  | VObj a =>
      match n with
      | 0 => false
      | S m =>
          forallb (fun k => is_tracked s a k && tracked_below m s (child s a k))
            (keys_of s a)
      end
  | _ => true
  end.

(** The state in which the setter calls [observe(newVal)]: the message is
    printed and [value = newVal] is done. *)
Definition written (d : dep_id) (newVal : value) (s : state) : state :=
  store d newVal
    (console_log (c_key (cell_of s d)) (c_value (cell_of s d)) newVal s).

(** The calls made between two states. *)
Definition new_calls (s s' : state) : list (wid * value) :=
  drop (length (calls s)) (calls s').

Definition count_calls (w : wid) (l : list (wid * value)) : nat :=
  length (filter (fun c => c.1 = w) l).

(** The observer [w] joined the set of [d] and no other set changed. *)
Definition subscribed_only_to (s s' : state) (w : wid) (d : dep_id) : Prop :=
  w ∈ subs_of s' d /\ forall d', d' <> d -> subs_of s' d' = subs_of s d'.

(** The state an operation leaves, whatever its outcome. *)
Definition run {A} (m : M A) (s : state) : state :=
  match m s with
  | Ret _ s' => s'
  | Throw _ s' => s'
  | OutOfFuel => s
  end.

(** ** Example data *)

Definition empty_state (h : list object) : state := State h [] [] None [] [].

(** [{a: {b: 2}}] *)
Definition ex_ab : state :=
  empty_state [ [("a", PData (VObj 1))]; [("b", PData (VNum 2))] ].

Definition ex_ab_tracked : state := run (observe es_proto 2 (VObj 0)) ex_ab.

Definition ex_ab_watched : state :=
  run (Watcher_new es_proto (VObj 0) "a.b" []) ex_ab_tracked.

(** [{a: {b: {c: 1, d: 2}, e: 7}}] *)
Definition ex_abc : state :=
  run (observe es_proto 3 (VObj 0))
    (empty_state [ [("a", PData (VObj 1))];
                   [("b", PData (VObj 2)); ("e", PData (VNum 7))];
                   [("c", PData (VNum 1)); ("d", PData (VNum 2))] ]).


(** [{a: 1}], intercepted; the plain objects [{p: {q: 3}}] and [{q: 3}]
    are not yet part of the tree. *)
Definition ex_fresh : state :=
  run (observe es_proto 1 (VObj 0))
    (empty_state [ [("a", PData (VNum 1))];
                   [("p", PData (VObj 2))];
                   [("q", PData (VNum 3))] ]).

(** [{a: {x: 1}, b: 0}], intercepted, with a watcher on [a.x]. *)
Definition ex_alias : state :=
  run (Watcher_new es_proto (VObj 0) "a.x" [])
    (run (observe es_proto 2 (VObj 0))
       (empty_state [ [("a", PData (VObj 1)); ("b", PData (VNum 0))];
                      [("x", PData (VNum 1))] ])).

(** [{a: 1}], intercepted, with a watcher on [a] whose callback
    constructs another watcher on [a]. *)
Definition ex_spawn : state :=
  run (Watcher_new es_proto (VObj 0) "a" [AWatch (VObj 0) "a" []])
    (run (observe es_proto 1 (VObj 0)) (empty_state [ [("a", PData (VNum 1))] ])).

Definition lift_state {A} (g : state -> state) (r : outcome A) : outcome A :=
  match r with
  | Ret x s => Ret x (g s)
  | Throw e s => Throw e (g s)
  | OutOfFuel => OutOfFuel
  end.

(** [final r P]: the operation ended, normally or by an exception, in a
    state satisfying [P]. *)
Definition final {A} (r : outcome A) (P : state -> Prop) : Prop :=
  match r with
  | Ret _ s' => P s'
  | Throw _ s' => P s'
  | OutOfFuel => False
  end.

(** What a read may change: subscriber sets grow at the end, nothing else
    moves. *)
Definition read_only (s s' : state) : Prop :=
  heap s' = heap s /\ watchers s' = watchers s /\ target s' = target s /\
  console s' = console s /\ calls s' = calls s /\
  length (cells s') = length (cells s) /\
  forall d, c_value (cell_of s' d) = c_value (cell_of s d) /\
            c_key (cell_of s' d) = c_key (cell_of s d) /\
            subs_of s d `prefix_of` subs_of s' d.

(** Every accessor property has its closure. *)
Definition wf_heap (s : state) : Prop :=
  forall a k d, own_prop k (props_of s a) = Some (PAccessor d) -> d < length (cells s).

Definition wf_heapb (s : state) : bool :=
  forallb
    (fun o : list (string * prop) =>
       forallb (fun kp => match kp.2 with
                          | PAccessor d => Nat.ltb d (length (cells s))
                          | PData _ => true
                          end) o)
    (heap s).

(** What interception respects: objects keep their keys and the values
    under them, closures keep their value, tracked slots stay tracked. *)
Definition same_tree (s s' : state) : Prop :=
  length (cells s) <= length (cells s') /\
  (forall d, d < length (cells s) -> c_value (cell_of s' d) = c_value (cell_of s d)) /\
  (forall a, keys_of s' a = keys_of s a) /\
  (forall a k, child s' a k = child s a k) /\
  (forall a k, is_tracked s a k = true -> is_tracked s' a k = true) /\
  wf_heap s'.

(** What any operation of the core respects: the log of calls and every
    subscriber set only grow, at the end. *)
Definition grows (s s' : state) : Prop :=
  calls s `prefix_of` calls s' /\ forall d, subs_of s d `prefix_of` subs_of s' d.

(** [m] relates the state it starts in to the state it returns in. *)
Definition preserves (R : state -> state -> Prop) {A} (m : M A) : Prop :=
  forall s x s', m s = Ret x s' -> R s s'.

(** ** The two-way binding of [v-model] *)

Section Binding.

Variable proto_get : value -> string -> option value.
Variable native_call : string -> value -> call_result.

(** [const updateValue = () => { element.value = getValue(this.$data, exp); }]:
    the read is the part that meets the core; the element, and the
    conversion of the value to the text it shows, are outside the model. *)
Definition updateValue (data : value) (exp : string) : M unit :=
  getValue proto_get data exp >> ret tt.

(** [updateValue] as the callback of a watcher: it drops its argument and
    reads again. *)
Definition updateValue_cb (data : value) (exp : string) : list action :=
  [ARead data exp].

(** [bindModel(element, exp)] up to the registration of the listener:
    [updateValue(); new Watcher(this, exp, updateValue);] *)
Definition bindModel (data : value) (exp : string) : M wid :=
  updateValue data exp >> Watcher_new proto_get data exp (updateValue_cb data exp).

(** The listener: [e => setValue(this.$data, exp, e.target.value)], the
    value of an input element being a string. *)
Definition on_input (fuel : nat) (data : value) (exp : string) (text : string) : M unit :=
  setValue proto_get native_call fuel data exp (VStr text).

(** The path resolves in [s]. *)
Definition resolves (s : state) (data : value) (path : string) : Prop :=
  exists v s', getValue proto_get data path s = Ret v s'.

(** A watcher whose callback only reads paths that resolve, as the
    callbacks of the repository do. *)
Definition reader (s : state) (w : wid) : Prop :=
  exists W, watchers s !! w = Some W /\
            Forall (fun act => exists data path,
                                 act = ARead data path /\ resolves s data path)
                   (w_cb W).

End Binding.

(** ** More ways to compare states *)

(** What an operation gives back, apart from the state. *)
Definition result_of {A} (r : outcome A) : option (A + exn) :=
  match r with
  | Ret x _ => Some (inl x)
  | Throw e _ => Some (inr e)
  | OutOfFuel => None
  end.

(** The two states hold the same data: the same objects and the same
    value in every closure. *)
Definition same_values (s s' : state) : Prop :=
  heap s' = heap s /\ forall d, c_value (cell_of s' d) = c_value (cell_of s d).

(** Between the two states the subscriber sets changed at most by taking
    in the observer [w]. *)
Definition adds_only (w : wid) (s s' : state) : Prop :=
  forall d, subs_of s' d = subs_of s d \/ subs_of s' d = addSub w (subs_of s d).

(** Reads cannot tell the two states apart: the objects have the same
    keys and the same value under each key. *)
Definition reads_alike (s s' : state) : Prop :=
  (forall a, keys_of s' a = keys_of s a) /\ (forall a k, child s' a k = child s a k).

(** Nothing was called or printed, and the watchers and [Dep.target] are
    the same. *)
Definition silent (s s' : state) : Prop :=
  target s' = target s /\ watchers s' = watchers s /\
  calls s' = calls s /\ console s' = console s.

(** The operation did not throw, and was [silent] if it returned. *)
Definition silently {A} (s : state) (r : outcome A) : Prop :=
  match r with
  | Ret _ s' => silent s s'
  | Throw _ _ => False
  | OutOfFuel => True
  end.

(** Every accessor of [s] is still an accessor in [s'], with the closure
    it had or with one created since. *)
Definition renewed (s s' : state) : Prop :=
  length (cells s) <= length (cells s') /\
  forall a k d,
    own_prop k (props_of s a) = Some (PAccessor d) ->
    exists d', own_prop k (props_of s' a) = Some (PAccessor d')
               /\ (d' = d \/ length (cells s) <= d').

(** Outside a recording: the old closures are untouched and the closures
    created since have no subscriber. *)
Definition unrecorded (s s' : state) : Prop :=
  target s = None ->
  target s' = None /\ cells s `prefix_of` cells s' /\
  forall d, length (cells s) <= d -> subs_of s' d = [].

(** ** More example data *)

(** The intercepted [{a: {b: 2}}] with an input bound to [a.b]. *)
Definition ex_bound : state :=
  run (bindModel es_proto (VObj 0) "a.b") ex_ab_tracked.

(** The same binding made when the slot [b] already has a subscriber, the
    watcher on [a.b]. *)
Definition ex_bound_watched : state :=
  run (bindModel es_proto (VObj 0) "a.b") ex_ab_watched.

(** An object that holds itself: [o.self = o]. *)
Definition ex_self : state := empty_state [ [("self", PData (VObj 0))] ].



(** [{a: 1}], intercepted, with three watchers subscribed to the slot
    [a]: a reader of [a], a watcher on the path [a.b], and a second
    reader of [a]. *)
Definition ex_three : state :=
  run (Watcher_new es_proto (VObj 0) "a" [ARead (VObj 0) "a"])
    (run (Watcher_new es_proto (VObj 0) "a.b" [])
       (run (Watcher_new es_proto (VObj 0) "a" [ARead (VObj 0) "a"])
          (run (observe es_proto 1 (VObj 0))
             (empty_state [ [("a", PData (VNum 1))] ])))).

(** [ex_alias] with a second watcher, on [b]. *)
Definition ex_alias_watched : state :=
  run (Watcher_new es_proto (VObj 0) "b" []) ex_alias.

(** Closed runs of the operations are evaluated. *)
Ltac by_computation := vm_compute; reflexivity.

(** * Properties *)

Section Properties.

Variable proto_get : value -> string -> option value.
Variable native_call : string -> value -> call_result.

(** ** Subscriber sets *)

Lemma addSub_elem w subs : w ∈ addSub w subs.
Proof.
  unfold addSub. case_decide; [done|]. apply elem_of_app. right. by apply list_elem_of_singleton.
Qed.

Lemma addSub_prefix w subs : subs `prefix_of` addSub w subs.
Proof. unfold addSub. case_decide; [done|]. by apply prefix_app_r. Qed.

Lemma addSub_idem w subs : w ∈ subs -> addSub w subs = subs.
Proof. intros H. unfold addSub. by case_decide. Qed.

Lemma addSub_NoDup w subs : NoDup subs -> NoDup (addSub w subs).
Proof.
  intros H. unfold addSub. case_decide; [done|].
  apply NoDup_app. split; [done|]. split.
  - intros x Hx Hw. apply list_elem_of_singleton in Hw. by subst.
  - apply NoDup_singleton.
Qed.

Lemma cell_of_addSub_ne d d' w s :
  d <> d' -> cell_of (Dep_addSub d w s) d' = cell_of s d'.
Proof.
  intros H. unfold cell_of, Dep_addSub. simpl. by rewrite list_lookup_alter_ne.
Qed.

Lemma cell_of_addSub_eq d w s :
  d < length (cells s) ->
  cell_of (Dep_addSub d w s) d =
  Cell (c_key (cell_of s d)) (c_value (cell_of s d)) (addSub w (subs_of s d)).
Proof.
  intros H. destruct (lookup_lt_is_Some_2 (cells s) d H) as [c Hc].
  unfold subs_of, cell_of, Dep_addSub, with_cells. cbn [cells].
  rewrite list_lookup_alter_eq, Hc. reflexivity.
Qed.

Lemma c_value_addSub d d' w s :
  c_value (cell_of (Dep_addSub d w s) d') = c_value (cell_of s d').
Proof.
  unfold cell_of, Dep_addSub. simpl. destruct (decide (d = d')) as [->|Hne].
  - rewrite list_lookup_alter_eq. by destruct (cells s !! d').
  - by rewrite list_lookup_alter_ne.
Qed.

Lemma c_key_addSub d d' w s :
  c_key (cell_of (Dep_addSub d w s) d') = c_key (cell_of s d').
Proof.
  unfold cell_of, Dep_addSub. simpl. destruct (decide (d = d')) as [->|Hne].
  - rewrite list_lookup_alter_eq. by destruct (cells s !! d').
  - by rewrite list_lookup_alter_ne.
Qed.

Lemma subs_addSub_ne d d' w s :
  d <> d' -> subs_of (Dep_addSub d w s) d' = subs_of s d'.
Proof. intros H. unfold subs_of. by rewrite cell_of_addSub_ne. Qed.

Lemma subs_addSub_eq d w s :
  d < length (cells s) -> subs_of (Dep_addSub d w s) d = addSub w (subs_of s d).
Proof. intros H. unfold subs_of at 1. by rewrite cell_of_addSub_eq. Qed.

Lemma subs_addSub_prefix d d' w s :
  subs_of s d' `prefix_of` subs_of (Dep_addSub d w s) d'.
Proof.
  destruct (decide (d = d')) as [->|Hne].
  - destruct (decide (d' < length (cells s))) as [Hlt|Hge].
    + rewrite subs_addSub_eq by done. apply addSub_prefix.
    + unfold subs_of, cell_of, Dep_addSub. simpl.
      rewrite list_lookup_alter_eq, (lookup_ge_None_2 (cells s) d') by lia. done.
  - by rewrite subs_addSub_ne.
Qed.


(** ** Reads *)

Lemma get_prop_tracked s a k d w :
  own_prop k (props_of s a) = Some (PAccessor d) -> target s = Some w ->
  get_prop proto_get (VObj a) k s = Ret (c_value (cell_of s d)) (Dep_addSub d w s).
Proof. intros H Ht. unfold get_prop, reactive_get. by rewrite H, Ht. Qed.

Lemma get_prop_untargeted o k s :
  target s = None -> final (get_prop proto_get o k s) (fun s' => s' = s).
Proof.
  intros Ht. unfold get_prop, reactive_get. rewrite Ht.
  destruct o as [| |b|n| |t|a|nm]; simpl; try done.
  destruct (own_prop k (props_of s a)) as [[v|d]|]; done.
Qed.

Lemma get_prop_throw o k s e s' :
  get_prop proto_get o k s = Throw e s' ->
  (o = VUndef \/ o = VNull) /\ s' = s /\ e = TypeError.
Proof.
  unfold get_prop, reactive_get. intros H. destruct e.
  destruct o as [| |b|n| |t|a|nm]; try discriminate;
    try (simplify_eq; by eauto).
  destruct (own_prop k (props_of s a)) as [[v|d]|]; discriminate.
Qed.

Lemma get_prop_fuel o k s : get_prop proto_get o k s <> OutOfFuel.
Proof.
  unfold get_prop, reactive_get. destruct o as [| |b|n| |t|a|nm]; try done.
  destruct (own_prop k (props_of s a)) as [[v|d]|]; done.
Qed.

Lemma reduce_get_app pre rest o s :
  reduce_get proto_get (pre ++ rest) o s =
  (let* x := reduce_get proto_get pre o in reduce_get proto_get rest x) s.
Proof.
  revert o s. induction pre as [|k pre IH]; intros o s; [done|].
  simpl. unfold bind. destruct (get_prop proto_get o k s) as [x s1|e s1|]; done.
Qed.

Lemma reduce_get_untargeted ks o s :
  target s = None -> final (reduce_get proto_get ks o s) (fun s' => s' = s).
Proof.
  revert o. induction ks as [|k ks IH]; intros o Ht; [done|].
  simpl. unfold bind. pose proof (get_prop_untargeted o k s Ht) as H.
  destruct (get_prop proto_get o k s) as [x s1|e s1|]; simpl in H; subst; try done.
  by apply IH.
Qed.

Lemma reduce_get_fuel ks o s : reduce_get proto_get ks o s <> OutOfFuel.
Proof.
  revert o s. induction ks as [|k ks IH]; intros o s; [done|].
  simpl. unfold bind. pose proof (get_prop_fuel o k s).
  destruct (get_prop proto_get o k s); done.
Qed.

Lemma read_only_refl s : read_only s s.
Proof. unfold read_only. repeat split; done. Qed.

Lemma read_only_trans s1 s2 s3 : read_only s1 s2 -> read_only s2 s3 -> read_only s1 s3.
Proof.
  unfold read_only. intros (a1&a2&a3&a4&a5&a6&A) (b1&b2&b3&b4&b5&b6&B).
  repeat split; try congruence.
  - destruct (A d) as (?&?&?), (B d) as (?&?&?). congruence.
  - destruct (A d) as (?&?&?), (B d) as (?&?&?). congruence.
  - destruct (A d) as (?&?&?), (B d) as (?&?&?). by etrans.
Qed.

Lemma read_only_addSub d w s : read_only s (Dep_addSub d w s).
Proof.
  unfold read_only. repeat split; try done.
  - unfold Dep_addSub. simpl. apply length_alter.
  - apply c_value_addSub.
  - apply c_key_addSub.
  - apply subs_addSub_prefix.
Qed.

Lemma get_prop_read_only o k s : final (get_prop proto_get o k s) (read_only s).
Proof.
  unfold get_prop, reactive_get. destruct o as [| |b|n| |t|a|nm]; simpl; try apply read_only_refl.
  destruct (own_prop k (props_of s a)) as [[v|d]|]; simpl; try apply read_only_refl.
  destruct (target s); [apply read_only_addSub | apply read_only_refl].
Qed.

Lemma reduce_get_read_only ks o s : final (reduce_get proto_get ks o s) (read_only s).
Proof.
  revert o s. induction ks as [|k ks IH]; intros o s; [apply read_only_refl|].
  simpl. unfold bind. pose proof (get_prop_read_only o k s) as H.
  destruct (get_prop proto_get o k s) as [x s1|e s1|]; simpl in H; try done.
  specialize (IH x s1). destruct (reduce_get proto_get ks x s1); simpl in *; try done;
    by eapply read_only_trans.
Qed.

(** ** The text of a value *)

Lemma try_method_read_only o name s :
  final (try_method proto_get native_call o name s) (read_only s).
Proof.
  unfold try_method, bind. pose proof (get_prop_read_only o name s) as H.
  destruct (get_prop proto_get o name s) as [m s1|e s1|]; simpl in H; try done.
  destruct m as [| |b|n| |t|a|f]; simpl; try done.
  destruct (native_call f o); simpl; done.
Qed.

Lemma try_method_untargeted o name s :
  target s = None ->
  final (try_method proto_get native_call o name s) (fun s' => s' = s).
Proof.
  intros Ht. unfold try_method, bind. pose proof (get_prop_untargeted o name s Ht) as H.
  destruct (get_prop proto_get o name s) as [m s1|e s1|]; simpl in H; try done.
  destruct m as [| |b|n| |t|a|f]; simpl; try done.
  destruct (native_call f o); simpl; done.
Qed.

(** The conversion of a value to text reads, and does nothing else. *)
Lemma ToString_read_only v s :
  final (ToString proto_get native_call v s) (read_only s).
Proof.
  unfold ToString. destruct (is_primitive v); [apply read_only_refl|].
  unfold bind. pose proof (try_method_read_only v "toString" s) as H.
  destruct (try_method proto_get native_call v "toString" s) as [[r|] s1|e s1|];
    simpl in H; try done.
  pose proof (try_method_read_only v "valueOf" s1) as H1.
  destruct (try_method proto_get native_call v "valueOf" s1) as [[r|] s2|e s2|];
    simpl in *; try done; by eapply read_only_trans.
Qed.

Lemma ToString_untargeted v s :
  target s = None ->
  final (ToString proto_get native_call v s) (fun s' => s' = s).
Proof.
  intros Ht. unfold ToString. destruct (is_primitive v); [done|].
  unfold bind. pose proof (try_method_untargeted v "toString" s Ht) as H.
  destruct (try_method proto_get native_call v "toString" s) as [[r|] s1|e s1|];
    simpl in H; subst; try done.
  pose proof (try_method_untargeted v "valueOf" s Ht) as H1.
  destruct (try_method proto_get native_call v "valueOf" s) as [[r|] s2|e s2|];
    simpl in *; by subst.
Qed.

Lemma ToString_primitive v s :
  is_primitive v = true -> ToString proto_get native_call v s = Ret tt s.
Proof. intros H. unfold ToString. by rewrite H. Qed.

Lemma message_read_only d v s :
  final (message proto_get native_call d v s) (read_only s).
Proof.
  unfold message, bind.
  pose proof (ToString_read_only (c_value (cell_of s d)) s) as H.
  destruct (ToString proto_get native_call (c_value (cell_of s d)) s) as [[] s1|e s1|];
    simpl in H; try done.
  pose proof (ToString_read_only v s1) as H1.
  destruct (ToString proto_get native_call v s1) as [[] s2|e s2|];
    simpl in *; try done; by eapply read_only_trans.
Qed.

Lemma message_untargeted d v s :
  target s = None ->
  final (message proto_get native_call d v s) (fun s' => s' = s).
Proof.
  intros Ht. unfold message, bind.
  pose proof (ToString_untargeted (c_value (cell_of s d)) s Ht) as H.
  destruct (ToString proto_get native_call (c_value (cell_of s d)) s) as [[] s1|e s1|];
    simpl in H; subst; try done.
  pose proof (ToString_untargeted v s Ht) as H1.
  destruct (ToString proto_get native_call v s) as [[] s2|e s2|]; simpl in *; by subst.
Qed.


(** ** Claims about reads and paths *)

(** C6: reading a tracked slot while [Dep.target] is the observer [O]
    leaves [O] in the subscriber set of that slot; reading it while
    [Dep.target] is unset returns the value and changes nothing, so no
    set gains a subscriber. *)
Theorem C6_tracked_read (s : state) (a : nat) (k : string) (d : nat) :
  tracked s a k d ->
  (forall O, target s = Some O ->
     exists s', get_prop proto_get (VObj a) k s = Ret (c_value (cell_of s d)) s'
                /\ O ∈ subs_of s' d)
  /\ (target s = None ->
      get_prop proto_get (VObj a) k s = Ret (c_value (cell_of s d)) s).
Proof.
  intros [Hp Hd]. split.
  - intros O Ht. exists (Dep_addSub d O s). split.
    + by apply get_prop_tracked.
    + rewrite subs_addSub_eq by done. apply addSub_elem.
  - intros Ht. unfold get_prop, reactive_get. by rewrite Hp, Ht.
Qed.

(** When the tracked read of the constructor throws, [Dep.target] still
    holds the watcher under construction. *)
Lemma Watcher_new_throw data exp cb s e s' :
  Watcher_new proto_get data exp cb s = Throw e s' ->
  target s' = Some (length (watchers s)).
Proof.
  unfold Watcher_new, bind, getValue. intros H.
  set (s1 := with_target _ _) in H.
  pose proof (reduce_get_read_only (split_dot exp) data s1) as R.
  destruct (reduce_get proto_get (split_dot exp) data s1) as [x s2|e2 s2|]; try done.
  simplify_eq. simpl in R. destruct R as (_&_&Ht&_). by rewrite Ht.
Qed.

Lemma Watcher_new_ret data exp cb s w s' :
  Watcher_new proto_get data exp cb s = Ret w s' ->
  target s' = None /\ w = length (watchers s).
Proof.
  unfold Watcher_new, bind, getValue. intros H.
  set (s1 := with_target _ _) in H.
  destruct (reduce_get proto_get (split_dot exp) data s1) as [x s2|e2 s2|]; try done.
  by simplify_eq.
Qed.

(** C4, as amended: [getValue] throws a [TypeError] as soon as a segment
    is read from an intermediate value that is [undefined] or [null]. *)
Theorem C4_get_fails_on_missing_intermediate
    (s : state) (root : value) (path : string)
    (pre : list string) (k : string) (rest : list string) (v : value) (s' : state) :
  split_dot path = (pre ++ k :: rest)%list ->
  reduce_get proto_get pre root s = Ret v s' ->
  v = VUndef \/ v = VNull ->
  getValue proto_get root path s = Throw TypeError s'.
Proof.
  intros Hp Hr Hv. unfold getValue. rewrite Hp, reduce_get_app. unfold bind. rewrite Hr.
  simpl. unfold bind. by destruct Hv as [-> | ->].
Qed.



Lemma length_cells_addSub d w s : length (cells (Dep_addSub d w s)) = length (cells s).
Proof. unfold Dep_addSub. simpl. apply length_alter. Qed.

Lemma subs_addSub_mono d d' w w' s :
  w ∈ subs_of s d' -> w ∈ subs_of (Dep_addSub d w' s) d'.
Proof.
  intros H. destruct (subs_addSub_prefix d d' w' s) as [l ->].
  apply elem_of_app. by left.
Qed.

Lemma subs_addSub_self d w s :
  d < length (cells s) -> w ∈ subs_of (Dep_addSub d w s) d.
Proof. intros H. rewrite subs_addSub_eq by done. apply addSub_elem. Qed.

(** C1, as amended: constructing a watcher on the path [a.b.c] of an
    intercepted tree subscribes it to every slot read on the way, the
    slot [a] of the root, the slot [b] of [root.a] and the slot [c] of
    [root.a.b], and to no other slot; the constructor returns with
    [Dep.target] reset. *)
Theorem C1_watcher_subscribes_along_path
    (s : state) (root a1 a2 da db dc : nat) (cb : list action) :
  tracked s root "a" da -> c_value (cell_of s da) = VObj a1 ->
  tracked s a1 "b" db -> c_value (cell_of s db) = VObj a2 ->
  tracked s a2 "c" dc ->
  exists s',
    Watcher_new proto_get (VObj root) "a.b.c" cb s = Ret (length (watchers s)) s'
    /\ target s' = None /\ heap s' = heap s
    /\ length (watchers s) ∈ subs_of s' da
    /\ length (watchers s) ∈ subs_of s' db
    /\ length (watchers s) ∈ subs_of s' dc
    /\ (forall d, d <> da -> d <> db -> d <> dc -> subs_of s' d = subs_of s d).
Proof.
  intros [Pa La] Va [Pb Lb] Vb [Pc Lc].
  unfold Watcher_new, getValue.
  set (w := length (watchers s)).
  set (s1 := with_target (Some w) _).
  change (split_dot "a.b.c") with ["a"; "b"; "c"].
  assert (E1 : get_prop proto_get (VObj root) "a" s1 = Ret (VObj a1) (Dep_addSub da w s1)).
  { rewrite <- Va. exact (get_prop_tracked s1 root "a" da w Pa eq_refl). }
  set (s2 := Dep_addSub da w s1) in *.
  assert (E2 : get_prop proto_get (VObj a1) "b" s2 = Ret (VObj a2) (Dep_addSub db w s2)).
  { rewrite <- Vb.
    replace (c_value (cell_of s db)) with (c_value (cell_of s2 db))
      by (unfold s2; by rewrite c_value_addSub).
    exact (get_prop_tracked s2 a1 "b" db w Pb eq_refl). }
  set (s3 := Dep_addSub db w s2) in *.
  assert (E3 : get_prop proto_get (VObj a2) "c" s3 =
               Ret (c_value (cell_of s3 dc)) (Dep_addSub dc w s3)).
  { exact (get_prop_tracked s3 a2 "c" dc w Pc eq_refl). }
  set (s4 := Dep_addSub dc w s3) in *.
  exists (with_target None s4). split.
  { unfold bind. simpl. unfold bind. rewrite E1, E2, E3. done. }
  split; [done|]. split; [done|].
  assert (L1 : length (cells s1) = length (cells s)) by reflexivity.
  assert (L2 : length (cells s2) = length (cells s)).
  { unfold s2. by rewrite length_cells_addSub. }
  assert (L3 : length (cells s3) = length (cells s)).
  { unfold s3. by rewrite length_cells_addSub. }
  change (subs_of (with_target None s4)) with (subs_of s4).
  split; [|split; [|split]].
  - unfold s4, s3. do 2 apply subs_addSub_mono. apply subs_addSub_self. lia.
  - unfold s4. apply subs_addSub_mono. apply subs_addSub_self. lia.
  - apply subs_addSub_self. lia.
  - intros d Ha Hb Hc. unfold s4, s3, s2. rewrite !subs_addSub_ne by done. reflexivity.
Qed.

(** C9: on [{a: {b: 2}}], [getValue] of [a.b] is [2]; after [setValue]
    of [a.b] to [5] a new [getValue] gives [5]; and when the slot is
    tracked, the same [setValue] runs the notification of the slot once
    [5] is stored: the callback of its watcher is called with [5]. *)
Theorem C9_get_set_example (fuel : nat) :
  3 <= fuel ->
  getValue proto_get (VObj 0) "a.b" ex_ab = Ret (VNum 2) ex_ab
  /\ (exists s',
        setValue proto_get native_call fuel (VObj 0) "a.b" (VNum 5) ex_ab = Ret tt s'
        /\ getValue proto_get (VObj 0) "a.b" s' = Ret (VNum 5) s')
  /\ (exists s',
        setValue proto_get native_call fuel (VObj 0) "a.b" (VNum 5) ex_ab_watched = Ret tt s'
        /\ setValue proto_get native_call fuel (VObj 0) "a.b" (VNum 5) ex_ab_watched
             = notify proto_get native_call (pred fuel) 1 (written 1 (VNum 5) ex_ab_watched)
        /\ getValue proto_get (VObj 0) "a.b" s' = Ret (VNum 5) s'
        /\ subs_of ex_ab_watched 1 = [0]
        /\ new_calls ex_ab_watched s' = [(0, VNum 5)]).
Proof.
  intros Hf. destruct fuel as [|[|[|f]]]; try lia.
  split; [reflexivity|]. split.
  - eexists. split; reflexivity.
  - eexists. split; [vm_compute; reflexivity|]. split; [reflexivity|].
    split; [reflexivity|]. split; reflexivity.
Qed.

(** ** Notification of callbacks that only read *)

Lemma with_calls_id s : with_calls (calls s) s = s.
Proof. by destruct s. Qed.

Lemma get_prop_with_calls o k l s :
  get_prop proto_get o k (with_calls l s) =
  lift_state (with_calls l) (get_prop proto_get o k s).
Proof.
  unfold get_prop, reactive_get. destruct o as [| |b|n| |t|a|nm]; try reflexivity.
  change (props_of (with_calls l s) a) with (props_of s a).
  destruct (own_prop k (props_of s a)) as [[v|d]|]; try reflexivity.
  change (target (with_calls l s)) with (target s).
  destruct (target s); reflexivity.
Qed.

Lemma reduce_get_with_calls ks o l s :
  reduce_get proto_get ks o (with_calls l s) =
  lift_state (with_calls l) (reduce_get proto_get ks o s).
Proof.
  revert o s. induction ks as [|k ks IH]; intros o s; [reflexivity|].
  simpl. unfold bind. rewrite get_prop_with_calls.
  destruct (get_prop proto_get o k s) as [x s1|e s1|]; simpl; try reflexivity.
  apply IH.
Qed.

Lemma reread_Some s w v :
  target s = None -> reread proto_get s w = Some v ->
  exists W, watchers s !! w = Some W /\
            getValue proto_get (w_data W) (w_exp W) s = Ret v s.
Proof.
  intros Ht. unfold reread. destruct (watchers s !! w) as [W|]; [|done].
  intros H. exists W. split; [done|]. unfold getValue in *.
  pose proof (reduce_get_untargeted (split_dot (w_exp W)) (w_data W) s Ht) as U.
  destruct (reduce_get proto_get (split_dot (w_exp W)) (w_data W) s); simpl in U; by simplify_eq.
Qed.

Lemma run_reads assign_f s l acts :
  target s = None ->
  Forall (fun act => exists data path,
                       act = ARead data path /\ resolves proto_get s data path) acts ->
  forEach acts (run_action proto_get assign_f) (with_calls l s) = Ret tt (with_calls l s).
Proof.
  intros Ht. induction 1 as [|act acts (data & path & -> & v & s1 & Hr) _ IH]; [done|].
  simpl. unfold bind at 1. unfold bind at 1. unfold getValue in *.
  rewrite reduce_get_with_calls.
  pose proof (reduce_get_untargeted (split_dot path) data s Ht) as U.
  rewrite Hr in *. simpl in U. subst s1. simpl. exact IH.
Qed.

Lemma update_reader assign_f s l w :
  target s = None -> reader proto_get s w -> is_Some (reread proto_get s w) ->
  Watcher_update proto_get assign_f w (with_calls l s) =
  Ret tt (with_calls (l ++ [(w, default VUndef (reread proto_get s w))]) s).
Proof.
  intros Ht (W & HW & Hcb) [v Hr]. rewrite Hr. simpl.
  destruct (reread_Some s w v Ht Hr) as (W' & HW' & Hg). simplify_eq.
  unfold Watcher_update. change (watchers (with_calls l s)) with (watchers s).
  rewrite HW. unfold bind, getValue in *. rewrite reduce_get_with_calls, Hg. simpl.
  exact (run_reads assign_f s (l ++ [(w, v)]) (w_cb W) Ht Hcb).
Qed.

(** A run of updates that only log their call. *)
Lemma notify_from_quiet_run assign_f d s :
  forall ws fuel i l,
  (forall j w, ws !! j = Some w -> subs_of s d !! (i + j) = Some w) ->
  (forall w, w ∈ ws -> forall l',
     Watcher_update proto_get assign_f w (with_calls l' s) =
     Ret tt (with_calls (l' ++ [(w, default VUndef (reread proto_get s w))]) s)) ->
  notify_from (Watcher_update proto_get assign_f) (length ws + fuel) d i (with_calls l s) =
  notify_from (Watcher_update proto_get assign_f) fuel d (i + length ws)
    (with_calls (l ++ reports proto_get s ws) s).
Proof.
  induction ws as [|w ws IH]; intros fuel i l Hs Hq.
  - simpl. by rewrite Nat.add_0_r, app_nil_r.
  - simpl. change (subs_of (with_calls l s) d) with (subs_of s d).
    pose proof (Hs 0 w eq_refl) as H0. rewrite Nat.add_0_r in H0. rewrite H0.
    unfold bind. rewrite Hq by (by left).
    rewrite IH.
    + rewrite <- app_assoc. simpl. rewrite Nat.add_succ_r. reflexivity.
    + intros j w' Hj. replace (S i + j) with (i + S j) by lia. by apply Hs.
    + intros w' Hw'. apply Hq. by right.
Qed.

Lemma readers_quiet assign_f s (ws : list nat) :
  target s = None ->
  (forall w, w ∈ ws -> reader proto_get s w /\ is_Some (reread proto_get s w)) ->
  forall w, w ∈ ws -> forall l',
    Watcher_update proto_get assign_f w (with_calls l' s) =
    Ret tt (with_calls (l' ++ [(w, default VUndef (reread proto_get s w))]) s).
Proof.
  intros Ht H w Hw l'. destruct (H w Hw) as [Hr Hs]. by apply update_reader.
Qed.

(** A pass over subscribers that all only read: one call each, in the
    order of the set, and nothing else changes. *)
Lemma notify_readers assign_f d s fuel :
  target s = None ->
  (forall w, w ∈ subs_of s d -> reader proto_get s w /\ is_Some (reread proto_get s w)) ->
  length (subs_of s d) < fuel ->
  Dep_notify (Watcher_update proto_get assign_f) fuel d s =
  Ret tt (with_calls (calls s ++ reports proto_get s (subs_of s d)) s).
Proof.
  intros Ht Hr Hf. unfold Dep_notify. rewrite <- (with_calls_id s) at 1.
  replace fuel with (length (subs_of s d) + (fuel - length (subs_of s d))) by lia.
  rewrite (notify_from_quiet_run _ d s (subs_of s d)).
  - destruct (fuel - length (subs_of s d)) as [|f'] eqn:Ef; [lia|]. simpl.
    change (subs_of (with_calls _ s) d) with (subs_of s d).
    rewrite lookup_ge_None_2 by lia. reflexivity.
  - intros j w Hj. exact Hj.
  - by apply readers_quiet.
Qed.

Lemma count_calls_reports s w ws :
  NoDup ws ->
  count_calls w (reports proto_get s ws) = if decide (w ∈ ws) then 1 else 0.
Proof.
  unfold count_calls, reports. induction ws as [|x ws IH]; intros Hnd.
  - destruct (decide (w ∈ [])) as [H|H]; [by apply elem_of_nil in H|done].
  - apply NoDup_cons in Hnd as [Hx Hnd]. simpl. rewrite filter_cons. simpl.
    specialize (IH Hnd). destruct (decide (x = w)) as [->|Hne].
    + simpl. rewrite IH. rewrite decide_False by done.
      rewrite decide_True by (by left). done.
    + rewrite IH. destruct (decide (w ∈ ws)) as [Hin|Hin].
      * rewrite decide_True by (by right). done.
      * rewrite decide_False; [done|]. intros [?|?]%elem_of_cons; by simplify_eq.
Qed.

Lemma subs_of_written d v s d' : subs_of (written d v s) d' = subs_of s d'.
Proof.
  unfold subs_of, cell_of, written, store, console_log, with_cells, with_console.
  cbn [cells]. destruct (decide (d = d')) as [->|Hne].
  - rewrite list_lookup_alter_eq. by destruct (cells s !! d').
  - by rewrite list_lookup_alter_ne.
Qed.

Lemma c_value_written d v s :
  d < length (cells s) -> c_value (cell_of (written d v s) d) = v.
Proof.
  intros H. destruct (lookup_lt_is_Some_2 (cells s) d H) as [c Hc].
  unfold cell_of, written, store, console_log, with_cells, with_console.
  cbn [cells]. by rewrite list_lookup_alter_eq, Hc.
Qed.

Lemma c_value_written_ne d d' v s :
  d <> d' -> c_value (cell_of (written d v s) d') = c_value (cell_of s d').
Proof.
  intros H. unfold cell_of, written, store, console_log, with_cells, with_console.
  cbn [cells]. by rewrite list_lookup_alter_ne.
Qed.

Lemma observe_non_object fuel v s :
  (forall a, v <> VObj a) -> observe proto_get fuel v s = Ret tt s.
Proof.
  intros H. destruct fuel; destruct v as [| |b|n| |t|a|nm]; try reflexivity;
    by destruct (H a).
Qed.

Lemma reactive_set_same fuel d v s :
  strict_eq v (c_value (cell_of s d)) = true ->
  reactive_set proto_get native_call (S fuel) d v s = Ret tt s.
Proof. intros H. simpl. unfold setter. by rewrite H. Qed.

Lemma written_after_message d v s s0 :
  read_only s s0 ->
  store d v (console_log (c_key (cell_of s d)) (c_value (cell_of s d)) v s0)
  = written d v s0.
Proof.
  intros (_&_&_&_&_&_&H). destruct (H d) as (Hv & Hk & _).
  unfold written. by rewrite Hv, Hk.
Qed.

(** A value-changing write whose message can be built goes on from the
    state in which the value is stored. *)
Lemma reactive_set_changed fuel d v s s0 :
  strict_eq v (c_value (cell_of s d)) = false ->
  message proto_get native_call d v s = Ret tt s0 ->
  reactive_set proto_get native_call (S fuel) d v s =
  (observe proto_get fuel v >>
   Dep_notify (Watcher_update proto_get (put_prop (reactive_set proto_get native_call fuel))) fuel d)
    (written d v s0).
Proof.
  intros H Hm. simpl. unfold setter. rewrite H. unfold bind at 1. rewrite Hm.
  rewrite written_after_message; [done|].
  pose proof (message_read_only d v s) as R. by rewrite Hm in R.
Qed.

(** A value-changing write whose message cannot be built ends there. *)
Lemma reactive_set_no_message fuel d v s e s0 :
  strict_eq v (c_value (cell_of s d)) = false ->
  message proto_get native_call d v s = Throw e s0 ->
  reactive_set proto_get native_call (S fuel) d v s = Throw e s0.
Proof. intros H Hm. simpl. unfold setter. rewrite H. unfold bind. by rewrite Hm. Qed.

(** A write of a value that is not an object to a slot whose subscribers
    only read. *)
Lemma write_to_readers fuel s d v :
  target s = None ->
  strict_eq v (c_value (cell_of s d)) = false ->
  message proto_get native_call d v s = Ret tt s ->
  (forall a, v <> VObj a) ->
  (forall w, w ∈ subs_of s d ->
     reader proto_get (written d v s) w
     /\ is_Some (reread proto_get (written d v s) w)) ->
  length (subs_of s d) + 1 < fuel ->
  reactive_set proto_get native_call fuel d v s =
  Ret tt (with_calls (calls s ++ reports proto_get (written d v s) (subs_of s d))
            (written d v s)).
Proof.
  intros Ht Hne Hm Hv Hr Hf. destruct fuel as [|f]; [lia|].
  rewrite (reactive_set_changed f d v s s Hne Hm). unfold bind.
  rewrite observe_non_object by done.
  rewrite notify_readers; rewrite ?subs_of_written; try done. lia.
Qed.

(** ** Claims about writes and notification *)


(** ** What every operation respects *)

Section Preserves.
Context (R : state -> state -> Prop) `{!PreOrder R}.

Lemma preserves_ret {A} (x : A) : preserves R (ret x).
Proof. intros s y s' H. unfold ret in H. by simplify_eq. Qed.

Lemma preserves_bind {A B} (m : M A) (f : A -> M B) :
  preserves R m -> (forall x, preserves R (f x)) -> preserves R (bind m f).
Proof.
  intros Hm Hf s y s' H. unfold bind in H.
  destruct (m s) as [x s1|e s1|] eqn:E; try done.
  etrans; [by eapply Hm | by eapply Hf].
Qed.

Lemma preserves_forEach {A} (l : list A) (f : A -> M unit) :
  (forall x, x ∈ l -> preserves R (f x)) -> preserves R (forEach l f).
Proof.
  induction l as [|x l IH]; intros Hf; simpl.
  - apply preserves_ret.
  - apply preserves_bind; [apply Hf; by left|].
    intros _. apply IH. intros y Hy. apply Hf. by right.
Qed.
End Preserves.

Global Instance grows_preorder : PreOrder grows.
Proof.
  split.
  - intros s. split; [done|]. by intros d.
  - intros s1 s2 s3 [C1 S1] [C2 S2]. split; [by etrans|].
    intros d. etrans; [apply S1 | apply S2].
Qed.

Lemma read_only_grows s s' : read_only s s' -> grows s s'.
Proof.
  intros (_&_&_&_&Hc&_&H). split; [by rewrite Hc|]. intros d. apply H.
Qed.

Lemma get_prop_grows o k : preserves grows (get_prop proto_get o k).
Proof.
  intros s x s' H. pose proof (get_prop_read_only o k s) as R. rewrite H in R.
  by apply read_only_grows.
Qed.

Lemma reduce_get_grows ks o : preserves grows (reduce_get proto_get ks o).
Proof.
  intros s x s' H. pose proof (reduce_get_read_only ks o s) as R. rewrite H in R.
  by apply read_only_grows.
Qed.

Lemma subs_of_new_cell s c d :
  subs_of s d `prefix_of` subs_of (with_cells (cells s ++ [c]) s) d.
Proof.
  unfold subs_of, cell_of. cbn [cells with_cells].
  destruct (decide (d < length (cells s))) as [Hlt|Hge].
  - by rewrite lookup_app_l.
  - rewrite (lookup_ge_None_2 (cells s) d) by lia. apply prefix_nil.
Qed.

Lemma new_Dep_grows key v : preserves grows (new_Dep key v).
Proof.
  intros s x s' H. unfold new_Dep in H. simplify_eq. split; [done|].
  intros d. apply subs_of_new_cell.
Qed.

Lemma defineProperty_grows a key p : preserves grows (defineProperty a key p).
Proof. intros s x s' H. unfold defineProperty in H. simplify_eq. split; [done|]. by intros d. Qed.

Lemma observe_grows fuel v : preserves grows (observe proto_get fuel v).
Proof.
  revert v. induction fuel as [|f IH]; intros v.
  - destruct v; try apply preserves_ret; tc_solve || (intros s x s' H; done).
  - destruct v; try (apply preserves_ret; tc_solve).
    intros s x s' H. simpl in H. revert H.
    apply (preserves_forEach grows). intros key _.
    apply preserves_bind; [tc_solve|apply get_prop_grows|]. intros y.
    unfold defineReactive. apply preserves_bind; [tc_solve|apply new_Dep_grows|].
    intros d. apply preserves_bind; [tc_solve|apply IH|].
    intros _. apply defineProperty_grows.
Qed.

Lemma Watcher_new_grows data exp cb : preserves grows (Watcher_new proto_get data exp cb).
Proof.
  intros s w s' H. unfold Watcher_new, bind in H.
  set (s1 := with_target _ _) in H.
  destruct (getValue proto_get data exp s1) as [x s2|e s2|] eqn:E; try done.
  simplify_eq. apply reduce_get_grows in E. destruct E as [Hc Hs].
  split; [exact Hc|exact Hs].
Qed.

Lemma written_grows d v s : grows s (written d v s).
Proof. split; [done|]. intros d'. by rewrite subs_of_written. Qed.

Section Knot.
Variable assign_f : value -> string -> value -> M unit.
Hypothesis assign_grows : forall o k v, preserves grows (assign_f o k v).

Lemma setValue_with_grows obj path v :
  preserves grows (setValue_with proto_get assign_f obj path v).
Proof.
  unfold setValue_with. apply preserves_bind; [tc_solve|apply reduce_get_grows|].
  intros x. apply assign_grows.
Qed.

Lemma run_action_grows act : preserves grows (run_action proto_get assign_f act).
Proof.
  destruct act as [data path|data path v|data exp cb]; simpl.
  - apply preserves_bind; [tc_solve|apply reduce_get_grows|].
    intros _. apply (preserves_ret grows).
  - apply setValue_with_grows.
  - apply preserves_bind; [tc_solve|apply Watcher_new_grows|].
    intros _. apply (preserves_ret grows).
Qed.

Lemma record_call_grows w v : preserves grows (record_call w v).
Proof.
  intros s x s' H. unfold record_call in H. simplify_eq. split; [|by intros d].
  simpl. by apply prefix_app_r.
Qed.

(** An update that returns has called the callback of its watcher. *)
Lemma Watcher_update_calls w s s' :
  Watcher_update proto_get assign_f w s = Ret tt s' ->
  grows s s' /\ exists v, (w, v) ∈ new_calls s s'.
Proof.
  unfold Watcher_update. destruct (watchers s !! w) as [W|]; [|done].
  unfold bind. intros H.
  destruct (getValue proto_get (w_data W) (w_exp W) s) as [v s1|e s1|] eqn:E; try done.
  pose proof (reduce_get_read_only (split_dot (w_exp W)) (w_data W) s) as RO.
  unfold getValue in E. rewrite E in RO. simpl in RO.
  simpl in H.
  set (s2 := with_calls (calls s1 ++ [(w, v)]) s1) in H.
  assert (G2 : grows s2 s').
  { revert H. apply (preserves_forEach grows). intros act _. apply run_action_grows. }
  assert (G1 : grows s s2).
  { etrans; [by apply read_only_grows|]. split; [|by intros d].
    simpl. by apply prefix_app_r. }
  split; [by etrans|]. exists v.
  destruct RO as (_&_&_&_&Hc&_). destruct G2 as [[l Hl] _].
  unfold new_calls. rewrite Hl. simpl. rewrite Hc.
  rewrite <- app_assoc, drop_app_length. by left.
Qed.

Lemma new_calls_later s s1 s' x :
  calls s `prefix_of` calls s1 -> x ∈ new_calls s1 s' -> x ∈ new_calls s s'.
Proof.
  intros Hp. unfold new_calls. apply prefix_length in Hp.
  replace (length (calls s1)) with (length (calls s) + (length (calls s1) - length (calls s)))
    by lia.
  rewrite <- drop_drop. intros H.
  eapply elem_of_submseteq; [exact H|apply submseteq_drop].
Qed.

Lemma new_calls_earlier s s1 s' x :
  calls s1 `prefix_of` calls s' -> x ∈ new_calls s s1 -> x ∈ new_calls s s'.
Proof.
  intros [l Hl]. unfold new_calls. rewrite Hl, drop_app. intros H.
  apply elem_of_app. by left.
Qed.

(** The pass reaches every observer that is in the set when it ends. *)
Lemma notify_from_visits fuel d :
  forall i s s',
  notify_from (Watcher_update proto_get assign_f) fuel d i s = Ret tt s' ->
  grows s s' /\
  forall j w, i <= j -> subs_of s' d !! j = Some w ->
              exists v, (w, v) ∈ new_calls s s'.
Proof.
  induction fuel as [|f IH]; intros i s s' H; simpl in H.
  - destruct (subs_of s d !! i) as [w|] eqn:E; [done|]. simplify_eq.
    split; [done|]. intros j w Hj Hw. apply lookup_ge_None_1 in E.
    apply lookup_lt_Some in Hw. lia.
  - destruct (subs_of s d !! i) as [w|] eqn:E.
    + unfold bind in H.
      destruct (Watcher_update proto_get assign_f w s) as [[] s1|e s1|] eqn:U; try done.
      apply Watcher_update_calls in U as [G1 [v Hv]].
      destruct (IH _ _ _ H) as [G2 Hvis].
      split; [by etrans|]. intros j w' Hj Hw'.
      destruct (decide (j = i)) as [->|Hne].
      * assert (subs_of s' d !! i = Some w) as Hw.
        { eapply prefix_lookup_Some; [exact E|]. etrans; [apply G1|apply G2]. }
        rewrite Hw in Hw'. simplify_eq. exists v.
        eapply new_calls_earlier; [apply G2|done].
      * destruct (Hvis j w') as [v' Hv']; [lia|done|]. exists v'.
        eapply new_calls_later; [apply G1|done].
    + simplify_eq. split; [done|]. intros j w Hj Hw. apply lookup_ge_None_1 in E.
      apply lookup_lt_Some in Hw. lia.
Qed.
End Knot.

Lemma put_prop_grows set_f o k v :
  (forall d x, preserves grows (set_f d x)) ->
  preserves grows (put_prop set_f o k v).
Proof.
  intros Hs s x s' H. unfold put_prop in H.
  destruct o as [| |b|n| |t|a|nm]; try done; try (by simplify_eq).
  destruct (own_prop k (props_of s a)) as [[y|d]|].
  - by apply defineProperty_grows in H.
  - by eapply Hs.
  - by apply defineProperty_grows in H.
Qed.

Lemma reactive_set_grows fuel : forall d v, preserves grows (reactive_set proto_get native_call fuel d v).
Proof.
  induction fuel as [|f IH]; intros d v s [] s' H; [done|].
  destruct (strict_eq v (c_value (cell_of s d))) eqn:Hne.
  { rewrite reactive_set_same in H by done. by simplify_eq. }
  pose proof (message_read_only d v s) as R.
  destruct (message proto_get native_call d v s) as [[] s0|e s0|] eqn:Hm; simpl in R.
  2: { by rewrite (reactive_set_no_message f d v s e s0) in H. }
  2: { done. }
  rewrite (reactive_set_changed f d v s s0 Hne Hm) in H.
  etrans; [by apply read_only_grows|]. etrans; [apply written_grows|].
  unfold bind in H.
  destruct (observe proto_get f v (written d v s0)) as [[] s1|e s1|] eqn:O; try done.
  apply observe_grows in O. etrans; [exact O|].
  unfold Dep_notify in H. eapply notify_from_visits; [|exact H].
  intros o k y. apply put_prop_grows. exact IH.
Qed.

Lemma assign_grows fuel o k v : preserves grows (assign proto_get native_call fuel o k v).
Proof. apply put_prop_grows, reactive_set_grows. Qed.

(** C8, as amended: [notify] walks the live set, not a snapshot.  When
    the callbacks of the subscribers only read and every path that the
    subscribers and their callbacks read resolves, outside a recording,
    the pass returns after updating exactly the subscribed observers,
    once each and in insertion order, and nothing but the log of calls
    has changed.  Whatever the callbacks do, a pass that returns has kept
    every observer subscribed at its beginning in the set and has updated
    every observer that is in the set at its end: none of the original
    ones is skipped, and those added during the pass are visited in the
    same pass. *)
Theorem C8_notify_walks_live_set (fuel : nat) (d : nat) (s : state) :
  (target s = None ->
   (forall w, w ∈ subs_of s d ->
      reader proto_get s w /\ is_Some (reread proto_get s w)) ->
   length (subs_of s d) < fuel ->
   notify proto_get native_call fuel d s
   = Ret tt (with_calls (calls s ++ reports proto_get s (subs_of s d)) s))
  /\ (forall s',
        notify proto_get native_call fuel d s = Ret tt s' ->
        subs_of s d `prefix_of` subs_of s' d
        /\ forall w, w ∈ subs_of s' d -> exists v, (w, v) ∈ new_calls s s').
Proof.
  split.
  - intros Ht Hp Hf. unfold notify, update. by apply notify_readers.
  - intros s' H. unfold notify, Dep_notify, update in H.
    apply notify_from_visits in H as [[_ G] Hvis]; [|intros o k v; apply assign_grows].
    split; [apply G|]. intros w Hw.
    apply list_elem_of_lookup in Hw as [j Hj]. apply (Hvis j w); [lia|done].
Qed.

(** ** Interception *)

Lemma own_prop_define_eq k p o : own_prop k (define_prop k p o) = Some p.
Proof.
  induction o as [|[k' p'] o IH]; simpl.
  - by rewrite String.eqb_refl.
  - destruct (String.eqb k' k) eqn:E; simpl; by rewrite E.
Qed.

Lemma own_prop_define_ne k k' p o :
  k' <> k -> own_prop k' (define_prop k p o) = own_prop k' o.
Proof.
  intros Hne. induction o as [|[k0 p0] o IH]; simpl.
  - destruct (String.eqb k k') eqn:E; [|done]. apply String.eqb_eq in E. by subst.
  - destruct (String.eqb k0 k) eqn:E; simpl.
    + apply String.eqb_eq in E. subst k0.
      destruct (String.eqb k k') eqn:E'; [|done]. apply String.eqb_eq in E'. by subst.
    + by rewrite IH.
Qed.

Lemma own_prop_Some_keys k o : is_Some (own_prop k o) <-> k ∈ map fst o.
Proof.
  induction o as [|[k' p'] o IH]; simpl.
  - split; [by intros [? ?]|by intros ?%elem_of_nil].
  - destruct (String.eqb k' k) eqn:E.
    + apply String.eqb_eq in E. subst. split; [intros _; by left|by eauto].
    + apply String.eqb_neq in E. rewrite IH. split; [by right|].
      intros [?|?]%elem_of_cons; [by subst|done].
Qed.

Lemma keys_define_prop k p o : k ∈ map fst o -> map fst (define_prop k p o) = map fst o.
Proof.
  induction o as [|[k' p'] o IH]; simpl; intros H.
  - by apply elem_of_nil in H.
  - destruct (String.eqb k' k) eqn:E; [done|]. simpl. f_equal. apply IH.
    apply String.eqb_neq in E. apply elem_of_cons in H as [?|?]; [by subst|done].
Qed.

Lemma props_of_define_ne a a' k p s :
  a <> a' -> props_of (with_heap (alter (define_prop k p) a (heap s)) s) a' = props_of s a'.
Proof. intros H. unfold props_of. cbn [heap with_heap]. by rewrite list_lookup_alter_ne. Qed.

Lemma props_of_define_eq a k p s :
  a < length (heap s) ->
  props_of (with_heap (alter (define_prop k p) a (heap s)) s) a =
  define_prop k p (props_of s a).
Proof.
  intros H. destruct (lookup_lt_is_Some_2 (heap s) a H) as [o Ho].
  unfold props_of. cbn [heap with_heap]. by rewrite list_lookup_alter_eq, Ho.
Qed.

Lemma keys_of_nonempty s a k : k ∈ keys_of s a -> a < length (heap s).
Proof.
  unfold keys_of, props_of. intros H.
  destruct (heap s !! a) as [o|] eqn:E; [by eapply lookup_lt_Some|].
  simpl in H. by apply elem_of_nil in H.
Qed.

Lemma child_untracked s a k : k ∉ keys_of s a -> child s a k = VUndef.
Proof.
  intros H. unfold child.
  destruct (own_prop k (props_of s a)) eqn:E; [|done].
  destruct H. apply own_prop_Some_keys. by rewrite E.
Qed.

Lemma same_tree_refl s : wf_heap s -> same_tree s s.
Proof. intros H. unfold same_tree. repeat split; done. Qed.

Lemma same_tree_wf s s' : same_tree s s' -> wf_heap s'.
Proof. by intros (_&_&_&_&_&H). Qed.

Lemma same_tree_trans s1 s2 s3 : same_tree s1 s2 -> same_tree s2 s3 -> same_tree s1 s3.
Proof.
  intros (L1&V1&K1&C1&T1&W1) (L2&V2&K2&C2&T2&W2). unfold same_tree.
  split; [lia|]. split; [|split; [|split; [|split]]].
  - intros d Hd. rewrite V2 by lia. by apply V1.
  - intros a. by rewrite K2.
  - intros a k. by rewrite C2.
  - intros a k H. by apply T2, T1.
  - done.
Qed.

(** A step that leaves the heap alone and keeps the old closures. *)
Lemma same_tree_cells s s' :
  wf_heap s -> heap s' = heap s -> length (cells s) <= length (cells s') ->
  (forall d, d < length (cells s) -> c_value (cell_of s' d) = c_value (cell_of s d)) ->
  same_tree s s'.
Proof.
  intros W Hh Hl Hv. unfold same_tree.
  assert (P : forall a, props_of s' a = props_of s a).
  { intros a. unfold props_of. by rewrite Hh. }
  split; [done|]. split; [done|]. split; [|split; [|split]].
  - intros a. unfold keys_of. by rewrite P.
  - intros a k. unfold child. rewrite P.
    destruct (own_prop k (props_of s a)) as [[v|d]|] eqn:E; try done.
    simpl. apply Hv. by eapply W.
  - intros a k. unfold is_tracked. rewrite P.
    destruct (own_prop k (props_of s a)) as [[v|d]|]; try done.
    intros H%Nat.ltb_lt. apply Nat.ltb_lt. lia.
  - intros a k d. rewrite P. intros H%W. lia.
Qed.

Lemma read_only_same_tree s s' : wf_heap s -> read_only s s' -> same_tree s s'.
Proof.
  intros W (Hh&_&_&_&_&Hl&H). apply same_tree_cells; try done; [lia|].
  intros d _. apply H.
Qed.

Lemma new_Dep_same_tree key v s d s' :
  wf_heap s -> new_Dep key v s = Ret d s' ->
  same_tree s s' /\ d = length (cells s) /\ d < length (cells s') /\
  c_value (cell_of s' d) = v.
Proof.
  intros W H. unfold new_Dep in H. simplify_eq. split; [|split; [done|split]].
  - apply same_tree_cells; try done.
    + simpl. rewrite length_app. lia.
    + intros d Hd. unfold cell_of. simpl. by rewrite lookup_app_l.
  - simpl. rewrite length_app. simpl. lia.
  - unfold cell_of. simpl. rewrite lookup_app_r by lia.
    by rewrite Nat.sub_diag.
Qed.

(** Installing the accessor over a key the object has, for a closure that
    holds the value of that key. *)
Lemma defineProperty_same_tree s a k d s' :
  wf_heap s -> k ∈ keys_of s a -> d < length (cells s) ->
  c_value (cell_of s d) = child s a k ->
  defineProperty a k (PAccessor d) s = Ret tt s' ->
  same_tree s s' /\ is_tracked s' a k = true /\
  forall b, b <> a -> props_of s' b = props_of s b.
Proof.
  intros W Hk Hd Hv H. unfold defineProperty in H. simplify_eq.
  set (s' := with_heap _ s).
  pose proof (keys_of_nonempty s a k Hk) as Ha.
  assert (Pa : props_of s' a = define_prop k (PAccessor d) (props_of s a))
    by (by apply props_of_define_eq).
  assert (Pb : forall b, b <> a -> props_of s' b = props_of s b).
  { intros b Hb. by apply props_of_define_ne. }
  assert (Ce : forall x, cell_of s' x = cell_of s x) by done.
  split; [|split; [|done]].
  - unfold same_tree. split; [done|]. split; [done|]. split; [|split; [|split]].
    + intros b. unfold keys_of. destruct (decide (b = a)) as [->|Hb].
      * rewrite Pa. by apply keys_define_prop.
      * by rewrite Pb.
    + intros b k'. unfold child. destruct (decide (b = a)) as [->|Hb].
      * rewrite Pa. destruct (decide (k' = k)) as [->|Hk'].
        -- rewrite own_prop_define_eq. simpl. rewrite Ce. exact Hv.
        -- rewrite own_prop_define_ne by done.
           destruct (own_prop k' (props_of s a)) as [[v|d']|]; done.
      * rewrite Pb by done. destruct (own_prop k' (props_of s b)) as [[v|d']|]; done.
    + intros b k'. unfold is_tracked. destruct (decide (b = a)) as [->|Hb].
      * rewrite Pa. destruct (decide (k' = k)) as [->|Hk'].
        -- rewrite own_prop_define_eq. intros _. by apply Nat.ltb_lt.
        -- by rewrite own_prop_define_ne.
      * by rewrite Pb.
    + intros b k' d'. destruct (decide (b = a)) as [->|Hb].
      * rewrite Pa. destruct (decide (k' = k)) as [->|Hk'].
        -- rewrite own_prop_define_eq. intros ?. by simplify_eq.
        -- rewrite own_prop_define_ne by done. apply W.
      * rewrite Pb by done. apply W.
  - unfold is_tracked. rewrite Pa, own_prop_define_eq. by apply Nat.ltb_lt.
Qed.

Lemma forallb_pointwise {A} (f g : A -> bool) (l : list A) :
  (forall x, f x = g x) -> forallb f l = forallb g l.
Proof. intros H. induction l as [|x l IH]; simpl; [done|]. by rewrite H, IH. Qed.

Lemma bounded_same_tree n : forall s s' v,
  same_tree s s' -> bounded n s' v = bounded n s v.
Proof.
  induction n as [|m IH]; intros s s' v T; destruct v as [| |b|x| |t|a|nm]; try done.
  simpl. destruct T as (L&V&K&C&Tr&W). rewrite K.
  apply forallb_pointwise. intros k. rewrite C. apply IH.
  unfold same_tree. done.
Qed.

Lemma tracked_below_same_tree n : forall s s' v,
  same_tree s s' -> tracked_below n s v = true -> tracked_below n s' v = true.
Proof.
  induction n as [|m IH]; intros s s' v T; destruct v as [| |b|x| |t|a|nm]; try done.
  simpl. pose proof T as (L&V&K&C&Tr&W). rewrite K.
  rewrite !forallb_forall. intros H k Hk. specialize (H k Hk).
  apply andb_true_iff in H as [H1 H2]. apply andb_true_iff. split.
  - by apply Tr.
  - rewrite C. by eapply IH.
Qed.

Lemma bounded_mono n m s v : bounded n s v = true -> n <= m -> bounded m s v = true.
Proof.
  revert m v. induction n as [|n IH]; intros m v H Hm;
    destruct v as [| |b|x| |t|a|nm]; try done; try (by destruct m).
  destruct m as [|m]; [lia|]. simpl in *.
  rewrite forallb_forall in *. intros k Hk. apply IH; [by apply H|lia].
Qed.

Lemma read_only_props s s' b : read_only s s' -> props_of s' b = props_of s b.
Proof. intros (Hh&_). unfold props_of. by rewrite Hh. Qed.

Lemma get_prop_own s a k :
  wf_heap s -> k ∈ keys_of s a ->
  exists s1, get_prop proto_get (VObj a) k s = Ret (child s a k) s1 /\ read_only s s1.
Proof.
  intros W Hk. apply own_prop_Some_keys in Hk as [p Hp].
  pose proof (get_prop_read_only (VObj a) k s) as R.
  unfold get_prop, child in *. rewrite Hp in *. destruct p as [v|d]; simpl in *.
  - by exists s.
  - unfold reactive_get in *. by eexists.
Qed.

Section InterceptKey.
Variable m : nat.
Hypothesis IH : forall v s,
  wf_heap s -> bounded m s v = true ->
  exists s', observe proto_get m v s = Ret tt s' /\ same_tree s s' /\
             tracked_below m s' v = true /\
             forall b, props_of s' b = props_of s b \/ bounded m s (VObj b) = true.

Lemma intercept_key_spec s s0 a k :
  same_tree s s0 -> k ∈ keys_of s a -> bounded m s (child s a k) = true ->
  exists sd,
    (let* v := get_prop proto_get (VObj a) k in
     defineReactive (observe proto_get m) a k v) s0 = Ret tt sd
    /\ same_tree s0 sd /\ is_tracked sd a k = true
    /\ tracked_below m sd (child s a k) = true
    /\ forall b, b <> a -> props_of sd b = props_of s0 b \/ bounded m s (VObj b) = true.
Proof.
  intros T0 Hk Hb. pose proof T0 as (L0&V0&K0&C0&Tr0&W0).
  assert (Hk0 : k ∈ keys_of s0 a) by (by rewrite K0).
  destruct (get_prop_own s0 a k W0 Hk0) as (sa & Eg & Ra).
  rewrite C0 in Eg. set (x := child s a k) in *.
  pose proof (read_only_same_tree s0 sa W0 Ra) as Ta.
  pose proof (same_tree_wf _ _ Ta) as Wa.
  destruct (new_Dep k x sa) as [d sb|e sb|] eqn:En; try done.
  destruct (new_Dep_same_tree k x sa d sb Wa En) as (Tb & Hd & Ld & Vd).
  pose proof (same_tree_wf _ _ Tb) as Wb.
  assert (Tsb : same_tree s sb) by (eapply same_tree_trans; [|exact Tb]; by eapply same_tree_trans).
  assert (Hbb : bounded m sb x = true) by (by rewrite (bounded_same_tree m s sb)).
  destruct (IH x sb Wb Hbb) as (sc & Eo & Tc & Hc & Touch).
  pose proof Tc as (Lc&Vc&Kc&Cc&Trc&Wc).
  assert (Tsc : same_tree s sc) by (by eapply same_tree_trans).
  pose proof Tsc as (_&_&Ksc&Csc&_&_).
  destruct (defineProperty_same_tree sc a k d (run (defineProperty a k (PAccessor d)) sc))
    as (Td & Hd' & Frame); try done.
  { by rewrite Ksc. }
  { lia. }
  { rewrite Vc by done. rewrite Vd. symmetry. apply Csc. }
  set (sd := run (defineProperty a k (PAccessor d)) sc) in *.
  exists sd. split; [|split; [|split; [|split]]].
  - unfold bind. rewrite Eg. unfold defineReactive, bind. rewrite En, Eo. reflexivity.
  - eapply same_tree_trans; [exact Ta|]. eapply same_tree_trans; [exact Tb|].
    by eapply same_tree_trans.
  - exact Hd'.
  - by eapply tracked_below_same_tree.
  - intros b Hne. rewrite (Frame b Hne).
    destruct (Touch b) as [E|B].
    + left. rewrite E. unfold new_Dep in En. simplify_eq.
      change (props_of (with_cells _ sa) b) with (props_of sa b).
      by apply read_only_props.
    + right. by rewrite (bounded_same_tree m s sb) in B.
Qed.

Lemma intercept_keys_spec s a :
  (forall k, k ∈ keys_of s a -> bounded m s (child s a k) = true) ->
  forall ks s0,
  same_tree s s0 -> (forall k, k ∈ ks -> k ∈ keys_of s a) ->
  exists s',
    forEach ks (fun key => let* v := get_prop proto_get (VObj a) key in
                           defineReactive (observe proto_get m) a key v) s0 = Ret tt s'
    /\ same_tree s0 s'
    /\ (forall k, k ∈ ks -> is_tracked s' a k = true /\
                            tracked_below m s' (child s a k) = true)
    /\ forall b, b <> a -> props_of s' b = props_of s0 b \/ bounded m s (VObj b) = true.
Proof.
  intros Hb. induction ks as [|k ks IHks]; intros s0 T0 Hks.
  - exists s0. split; [done|]. split; [apply same_tree_refl; by eapply same_tree_wf|].
    split; [by intros k ?%elem_of_nil|]. intros b _. by left.
  - destruct (intercept_key_spec s s0 a k T0) as (sd & E & Td & Trk & Tb & Touch).
    { apply Hks. by left. }
    { apply Hb, Hks. by left. }
    destruct (IHks sd) as (s' & E' & T' & Trks & Touch').
    { by eapply same_tree_trans. }
    { intros k' Hk'. apply Hks. by right. }
    exists s'. split; [|split; [|split]].
    + simpl. unfold bind at 1. rewrite E. exact E'.
    + by eapply same_tree_trans.
    + intros k' [->|Hk']%elem_of_cons; [|by apply Trks].
      pose proof T' as (_&_&_&_&Tr'&_). split; [by apply Tr'|].
      by eapply tracked_below_same_tree.
    + intros b Hne. destruct (Touch' b Hne) as [E1|B]; [|by right].
      destruct (Touch b Hne) as [E2|B]; [|by right]. left. by rewrite E1.
Qed.
End InterceptKey.

(** Interception of a tree returns, keeps the tree, tracks every property
    below its root and touches only objects below its root. *)
Lemma observe_total n : forall v s,
  wf_heap s -> bounded n s v = true ->
  exists s', observe proto_get n v s = Ret tt s' /\ same_tree s s' /\
             tracked_below n s' v = true /\
             forall b, props_of s' b = props_of s b \/ bounded n s (VObj b) = true.
Proof.
  induction n as [|m IH]; intros v s W Hb.
  - destruct v as [| |b|x| |t|a|nm]; try done;
      (exists s; split; [done|]; split; [by apply same_tree_refl|]; split; [done|];
       intros; by left).
  - destruct v as [| |b|x| |t|a|nm];
      try (exists s; split; [done|]; split; [by apply same_tree_refl|]; split; [done|];
           intros; by left).
    simpl in Hb. rewrite forallb_forall in Hb.
    assert (Hb' : forall k, k ∈ keys_of s a -> bounded m s (child s a k) = true).
    { intros k Hk. apply Hb. by apply list_elem_of_In. }
    destruct (intercept_keys_spec m IH s a Hb' (keys_of s a) s (same_tree_refl s W))
      as (s' & E & T & Trk & Touch); [done|].
    exists s'. split; [exact E|]. split; [exact T|]. split.
    + simpl. pose proof T as (_&_&K&C&_&_). rewrite K. apply forallb_forall.
      intros k Hk%list_elem_of_In. destruct (Trk k Hk) as [H1 H2].
      rewrite H1, C, H2. done.
    + intros b. destruct (decide (b = a)) as [->|Hne].
      * right. simpl. apply forallb_forall. intros k Hk. by apply Hb.
      * destruct (Touch b Hne) as [?|B]; [by left|]. right.
        eapply bounded_mono; [exact B|lia].
Qed.

Lemma forEach_ret_ext {A} (f g : A -> M unit) (l : list A) :
  (forall x s s', f x s = Ret tt s' -> g x s = Ret tt s') ->
  forall s s', forEach l f s = Ret tt s' -> forEach l g s = Ret tt s'.
Proof.
  intros Hfg. induction l as [|x l IH]; intros s s' H; [done|].
  simpl in *. unfold bind in *.
  destruct (f x s) as [[] s1|e s1|] eqn:E; try done.
  rewrite (Hfg _ _ _ E). by apply IH.
Qed.

(** More fuel does not change what interception returns. *)
Lemma observe_fuel_mono n : forall v s s',
  observe proto_get n v s = Ret tt s' ->
  forall m, n <= m -> observe proto_get m v s = Ret tt s'.
Proof.
  induction n as [|n IH]; intros v s s' H m Hm.
  - destruct v as [| |b|x| |t|a|nm]; try done; by destruct m.
  - destruct v as [| |b|x| |t|a|nm]; try (by destruct m).
    destruct m as [|m]; [lia|]. simpl in *. revert H. apply forEach_ret_ext.
    intros key s0 s1. unfold bind, defineReactive, bind.
    destruct (get_prop proto_get (VObj a) key s0) as [y sa|e sa|]; try done.
    destruct (new_Dep key y sa) as [d sb|e sb|]; try done.
    destruct (observe proto_get n y sb) as [[] sc|e sc|] eqn:E; try done.
    rewrite (IH _ _ _ E m) by lia. done.
Qed.

Lemma wf_heap_written d v s : wf_heap s -> wf_heap (written d v s).
Proof.
  intros W a k d' H. apply W in H. unfold written, store, console_log. simpl.
  by rewrite length_alter.
Qed.

(** Interception of the value of a property never reaches the object that
    holds the property: it would not return. *)
Lemma observe_spares_container n : forall fuel s a k v s',
  wf_heap s -> k ∈ keys_of s a -> child s a k = v ->
  observe proto_get fuel v s = Ret tt s' ->
  n <= fuel -> bounded n s v = true ->
  props_of s' a = props_of s a.
Proof.
  induction n as [|m IH]; intros fuel s a k v s' W Hk Hc Ho Hn Hb.
  - destruct v as [| |b|x| |t|o|nm]; try done;
      (rewrite observe_non_object in Ho by done; by simplify_eq).
  - destruct (observe_total (S m) v s W Hb) as (s2 & E & _ & _ & Touch).
    pose proof (observe_fuel_mono _ _ _ _ E fuel Hn) as E'.
    rewrite E' in Ho. injection Ho as <-.
    destruct (Touch a) as [?|B]; [done|].
    simpl in B. rewrite forallb_forall in B.
    apply (IH fuel s a k v s2 W Hk Hc E'); [lia|].
    rewrite <- Hc. apply B. by apply list_elem_of_In.
Qed.

Lemma reactive_set_notifies fuel d v s s0 s2 :
  strict_eq v (c_value (cell_of s d)) = false ->
  message proto_get native_call d v s = Ret tt s0 ->
  observe proto_get fuel v (written d v s0) = Ret tt s2 ->
  reactive_set proto_get native_call (S fuel) d v s = notify proto_get native_call fuel d s2.
Proof.
  intros Hne Hm Ho. rewrite (reactive_set_changed fuel d v s s0 Hne Hm).
  unfold bind. by rewrite Ho.
Qed.

Lemma wf_heap_read_only s s' : wf_heap s -> read_only s s' -> wf_heap s'.
Proof.
  intros W (Hh&_&_&_&_&Hl&_) a k d H. rewrite Hl. apply (W a k d).
  unfold props_of in *. by rewrite <- Hh.
Qed.


Lemma wf_heapb_sound s : wf_heapb s = true -> wf_heap s.
Proof.
  unfold wf_heapb, wf_heap, props_of. rewrite forallb_forall. intros H a k d Hp.
  destruct (heap s !! a) as [o|] eqn:E; [|done]. simpl in Hp.
  assert (Ho : forallb (fun kp : string * prop =>
                          match kp.2 with
                          | PAccessor d => Nat.ltb d (length (cells s))
                          | PData _ => true
                          end) o = true).
  { apply H. apply list_elem_of_In. by eapply list_elem_of_lookup_2. }
  clear E H. induction o as [|[k' p'] o IH]; [done|]. simpl in *.
  apply andb_true_iff in Ho as [H1 H2].
  destruct (String.eqb k' k); [|by apply IH]. simplify_eq. by apply Nat.ltb_lt.
Qed.

End Properties.

(** * The claims on concrete data *)

(** C1, counterexample: on [{a: {b: {c: 1, d: 2}, e: 7}}] the constructor
    returns, and the new watcher has joined more sets than the one of the
    slot [c] (closure [2]): it is in the set of the slot [a] of the root
    (closure [0]), which was empty before. *)
Lemma C1_counterexample :
  Watcher_new es_proto (VObj 0) "a.b.c" [] ex_abc
    = Ret 0 (run (Watcher_new es_proto (VObj 0) "a.b.c" []) ex_abc)
  /\ ~ subscribed_only_to ex_abc
         (run (Watcher_new es_proto (VObj 0) "a.b.c" []) ex_abc) 0 2.
Proof.
  split; [by_computation|]. intros [_ H].
  specialize (H 0 ltac:(discriminate)). vm_compute in H. discriminate.
Qed.

Lemma C1_witness :
  exists s',
    Watcher_new es_proto (VObj 0) "a.b.c" [] ex_abc = Ret (length (watchers ex_abc)) s'
    /\ target s' = None /\ heap s' = heap ex_abc
    /\ length (watchers ex_abc) ∈ subs_of s' 0
    /\ length (watchers ex_abc) ∈ subs_of s' 1
    /\ length (watchers ex_abc) ∈ subs_of s' 2
    /\ (forall d, d <> 0 -> d <> 1 -> d <> 2 -> subs_of s' d = subs_of ex_abc d).
Proof.
  apply (C1_watcher_subscribes_along_path es_proto ex_abc 0 1 2 0 1 2 []).
  - split; [by_computation | vm_compute; lia].
  - by_computation.
  - split; [by_computation | vm_compute; lia].
  - by_computation.
  - split; [by_computation | vm_compute; lia].
Defined.

(** C2: on the intercepted [{a: {b: 2}}] the path [a.x.y] does not
    resolve; the constructor throws and leaves [Dep.target] pointing to
    the watcher it was constructing. *)
Theorem C2_target_left_set_on_throw :
  target ex_ab_tracked = None
  /\ exists s',
       Watcher_new es_proto (VObj 0) "a.x.y" [] ex_ab_tracked = Throw TypeError s'
       /\ target s' = Some 0.
Proof.
  split; [by_computation|].
  exists (run (Watcher_new es_proto (VObj 0) "a.x.y" []) ex_ab_tracked).
  split; by_computation.
Qed.



(** C4, counterexample: in [{a: {b: 2}}] the intermediate value [a.b] is
    the number [2], not a mapping, and [getValue] of [a.b.c] returns
    [undefined] instead of failing. *)
Lemma C4_counterexample :
  reduce_get es_proto ["a"; "b"] (VObj 0) ex_ab = Ret (VNum 2) ex_ab
  /\ getValue es_proto (VObj 0) "a.b.c" ex_ab = Ret VUndef ex_ab.
Proof. split; by_computation. Qed.

Lemma C4_witness :
  getValue es_proto (VObj 0) "a.x.y" ex_ab = Throw TypeError ex_ab.
Proof.
  apply (C4_get_fails_on_missing_intermediate es_proto ex_ab (VObj 0) "a.x.y"
           ["a"; "x"] "y" [] VUndef ex_ab).
  - by_computation.
  - by_computation.
  - left. by_computation.
Defined.



(** After that write every leaf of the new subtree can be subscribed to:
    a watcher constructed on [a.p.q] joins the set of the slot [q]. *)
Example fresh_leaf_subscribable :
  tracked (run (assign es_proto es_native 3 (VObj 0) "a" (VObj 1)) ex_fresh) 2 "q" 2
  /\ 0 ∈ subs_of
           (run (Watcher_new es_proto (VObj 0) "a.p.q" [])
              (run (assign es_proto es_native 3 (VObj 0) "a" (VObj 1)) ex_fresh)) 2.
Proof.
  split; [split; [by_computation | vm_compute; lia]|].
  vm_compute. apply list_elem_of_here.
Qed.

Lemma C6_witness :
  tracked (with_target (Some 7) ex_ab_tracked) 1 "b" 1
  /\ exists s',
       get_prop es_proto (VObj 1) "b" (with_target (Some 7) ex_ab_tracked)
         = Ret (VNum 2) s'
       /\ 7 ∈ subs_of s' 1.
Proof.
  assert (T : tracked (with_target (Some 7) ex_ab_tracked) 1 "b" 1).
  { split; [by_computation | vm_compute; lia]. }
  split; [exact T|].
  exact (proj1 (C6_tracked_read es_proto _ 1 "b" 1 T) 7 eq_refl).
Defined.

(** C8, counterexample: [2] has just been stored in the slot [a].  When
    its notification begins the set holds the watcher [0], the only
    watcher there is.  The callback of [0] constructs the watcher [1],
    which joins the set, and the same pass goes on to update [1]. *)
Lemma C8_counterexample :
  subs_of (written 0 (VNum 2) ex_spawn) 0 = [0]
  /\ length (watchers (written 0 (VNum 2) ex_spawn)) = 1
  /\ exists s',
       notify es_proto es_native 3 0 (written 0 (VNum 2) ex_spawn) = Ret tt s'
       /\ subs_of s' 0 = [0; 1]
       /\ new_calls (written 0 (VNum 2) ex_spawn) s' = [(0, VNum 2); (1, VNum 2)].
Proof.
  split; [by_computation|]. split; [by_computation|].
  exists (run (notify es_proto es_native 3 0) (written 0 (VNum 2) ex_spawn)).
  split; [by_computation|]. split; by_computation.
Qed.

Lemma C8_witness :
  notify es_proto es_native 2 1 ex_bound
  = Ret tt (with_calls (calls ex_bound ++ reports es_proto ex_bound (subs_of ex_bound 1))
              ex_bound).
Proof.
  apply (proj1 (C8_notify_walks_live_set es_proto es_native 2 1 ex_bound)).
  - by_computation.
  - change (subs_of ex_bound 1) with [0]. intros w Hw.
    apply list_elem_of_singleton in Hw. subst w. split.
    + exists (Watcher (VObj 0) "a.b" [ARead (VObj 0) "a.b"]). split; [by_computation|].
      constructor; [|constructor].
      exists (VObj 0), "a.b". split; [reflexivity|].
      exists (VNum 2), ex_bound. by_computation.
    + exists (VNum 2). by_computation.
  - vm_compute. lia.
Defined.

Lemma C9_witness :
  getValue es_proto (VObj 0) "a.b" ex_ab = Ret (VNum 2) ex_ab
  /\ (exists s',
        setValue es_proto es_native 3 (VObj 0) "a.b" (VNum 5) ex_ab = Ret tt s'
        /\ getValue es_proto (VObj 0) "a.b" s' = Ret (VNum 5) s')
  /\ (exists s',
        setValue es_proto es_native 3 (VObj 0) "a.b" (VNum 5) ex_ab_watched = Ret tt s'
        /\ setValue es_proto es_native 3 (VObj 0) "a.b" (VNum 5) ex_ab_watched
             = notify es_proto es_native 2 1 (written 1 (VNum 5) ex_ab_watched)
        /\ getValue es_proto (VObj 0) "a.b" s' = Ret (VNum 5) s'
        /\ subs_of ex_ab_watched 1 = [0]
        /\ new_calls ex_ab_watched s' = [(0, VNum 5)]).
Proof. apply (C9_get_set_example es_proto es_native 3). lia. Defined.



(** * Further properties of the code *)

Section More.

Variable proto_get : value -> string -> option value.
Variable native_call : string -> value -> call_result.

(** ** Paths and reads *)

Lemma split_dot_cons p : exists k r, split_dot p = k :: r.
Proof.
  induction p as [|c p IH]; simpl; [by eauto|].
  destruct (Ascii.eqb c "."%char); [by eauto|].
  destruct IH as (k & r & ->). by eauto.
Qed.

(** X1: whatever the path, the empty one included, [getValue] and
    [setValue] on a root that is [undefined] or [null] throw a
    [TypeError] and leave the state as it was. *)
Theorem path_access_on_missing_root
    (fuel : nat) (root : value) (path : string) (v : value) (s : state) :
  root = VUndef \/ root = VNull ->
  getValue proto_get root path s = Throw TypeError s
  /\ setValue proto_get native_call fuel root path v s = Throw TypeError s.
Proof.
  intros Hr. destruct (split_dot_cons path) as (k & r & E).
  assert (G : forall k', get_prop proto_get root k' s = Throw TypeError s).
  { intros k'. by destruct Hr as [-> | ->]. }
  split.
  - unfold getValue. rewrite E. simpl. unfold bind. by rewrite G.
  - unfold setValue, setValue_with, bind. rewrite E.
    destruct r as [|k2 r].
    + simpl. unfold ret, assign, put_prop. by destruct Hr as [-> | ->].
    + change (removelast (k :: k2 :: r)) with (k :: removelast (k2 :: r)).
      simpl. unfold bind. by rewrite G.
Qed.

Lemma adds_only_refl w s : adds_only w s s.
Proof. intros d. by left. Qed.

Lemma addSub_addSub w l : addSub w (addSub w l) = addSub w l.
Proof. apply addSub_idem, addSub_elem. Qed.

Lemma adds_only_trans w s1 s2 s3 :
  adds_only w s1 s2 -> adds_only w s2 s3 -> adds_only w s1 s3.
Proof.
  intros H1 H2 d. destruct (H1 d) as [E1|E1], (H2 d) as [E2|E2]; rewrite E2, E1;
    rewrite ?addSub_addSub; auto.
Qed.

Lemma adds_only_addSub d w s : adds_only w s (Dep_addSub d w s).
Proof.
  intros d'. destruct (decide (d = d')) as [->|Hne].
  - destruct (decide (d' < length (cells s))) as [Hlt|Hge].
    + right. by apply subs_addSub_eq.
    + left. unfold subs_of, cell_of, Dep_addSub. simpl.
      rewrite list_lookup_alter_eq, (lookup_ge_None_2 (cells s) d') by lia. done.
  - left. by apply subs_addSub_ne.
Qed.

Lemma get_prop_adds_only o k s w :
  target s = Some w -> final (get_prop proto_get o k s) (adds_only w s).
Proof.
  intros Ht. unfold get_prop, reactive_get. rewrite Ht.
  destruct o as [| |b|n| |t|a|nm]; simpl; try apply adds_only_refl.
  destruct (own_prop k (props_of s a)) as [[v|d]|]; simpl;
    [apply adds_only_refl | apply adds_only_addSub | apply adds_only_refl].
Qed.

Lemma reduce_get_adds_only ks : forall o s w,
  target s = Some w -> final (reduce_get proto_get ks o s) (adds_only w s).
Proof.
  induction ks as [|k ks IH]; intros o s w Ht; [apply adds_only_refl|].
  simpl. unfold bind.
  pose proof (get_prop_adds_only o k s w Ht) as A.
  pose proof (get_prop_read_only proto_get o k s) as R.
  destruct (get_prop proto_get o k s) as [x s1|e s1|]; simpl in *; try done.
  assert (Ht1 : target s1 = Some w).
  { destruct R as (_&_&T&_). by rewrite T. }
  specialize (IH x s1 w Ht1).
  destruct (reduce_get proto_get ks x s1); simpl in *; try done;
    by eapply adds_only_trans.
Qed.

Lemma getValue_frame (root : value) (path : string) (s : state) :
  final (getValue proto_get root path s)
    (fun s' =>
       read_only s s'
       /\ (target s = None -> s' = s)
       /\ (forall w, target s = Some w -> adds_only w s s')).
Proof.
  unfold getValue.
  pose proof (reduce_get_read_only proto_get (split_dot path) root s) as R.
  pose proof (reduce_get_untargeted proto_get (split_dot path) root s) as U.
  pose proof (reduce_get_adds_only (split_dot path) root s) as A.
  destruct (reduce_get proto_get (split_dot path) root s) as [x s1|e s1|];
    simpl in *; try done; (split; [done|]; split; [done|]; intros w Hw; by apply A).
Qed.

(** X2: a read through [getValue] never touches the objects, the
    watchers, [Dep.target], the stored values or the logs, whether it
    returns or throws, and it always ends.  All it can do is put the
    observer that is being recorded at the end of subscriber sets; when
    no observer is being recorded it leaves the state as it was. *)
Theorem getValue_effects (root : value) (path : string) (s : state) :
  final (getValue proto_get root path s)
    (fun s' =>
       read_only s s'
       /\ (target s = None -> s' = s)
       /\ (forall w, target s = Some w -> adds_only w s s')).
Proof. exact (getValue_frame root path s). Qed.

Lemma same_values_read s s' s1 s1' :
  same_values s s' -> read_only s s1 -> read_only s' s1' -> same_values s1 s1'.
Proof.
  intros [Hh Hv] (H1&_&_&_&_&_&V1) (H2&_&_&_&_&_&V2). split; [congruence|].
  intros d. destruct (V1 d) as (E1&_), (V2 d) as (E2&_). rewrite E2, E1. apply Hv.
Qed.

Lemma get_prop_same_values o k s s' :
  same_values s s' ->
  match get_prop proto_get o k s, get_prop proto_get o k s' with
  | Ret x s1, Ret x' s1' => x = x' /\ same_values s1 s1'
  | Throw e s1, Throw e' s1' => e = e'
  | _, _ => False
  end.
Proof.
  intros SV. pose proof (get_prop_read_only proto_get o k s) as R.
  pose proof (get_prop_read_only proto_get o k s') as R'.
  pose proof SV as [Hh Hv].
  unfold get_prop, reactive_get in *.
  destruct o as [| |b|n| |t|a|nm]; simpl in *; try done.
  assert (P : props_of s' a = props_of s a) by (unfold props_of; by rewrite Hh).
  rewrite P in *. destruct (own_prop k (props_of s a)) as [[v|d]|]; simpl in *; try done.
  split; [by rewrite Hv|]. by eapply same_values_read.
Qed.

Lemma reduce_get_same_values ks : forall o s s',
  same_values s s' ->
  result_of (reduce_get proto_get ks o s) = result_of (reduce_get proto_get ks o s').
Proof.
  induction ks as [|k ks IH]; intros o s s' SV; [done|].
  simpl. unfold bind. pose proof (get_prop_same_values o k s s' SV) as G.
  destruct (get_prop proto_get o k s) as [x s1|e s1|],
           (get_prop proto_get o k s') as [x' s1'|e' s1'|]; try done.
  - destruct G as [-> SV1]. by apply IH.
  - by subst.
Qed.

(** X3: what [getValue] returns or throws depends on the data only: two
    states with the same objects and the same stored values give the same
    result, whatever [Dep.target] and the subscriber sets are. *)
Theorem getValue_result_independent
    (root : value) (path : string) (s s' : state) :
  same_values s s' ->
  result_of (getValue proto_get root path s) = result_of (getValue proto_get root path s').
Proof. intros SV. by apply reduce_get_same_values. Qed.

(** ** Writes to plain properties *)

(** X4: a write to a key that is not a tracked slot of its container, a
    key added after interception for one, is a plain store, as long as
    the object does not inherit the key when it has no property of that
    name ([__proto__] is inherited, with a setter).  [setValue] returns
    whatever the fuel, calls no callback and prints nothing, and changes
    no closure; the key then is a plain property of the object holding
    the value, the other keys and objects are as before; and a read of
    the key gives the value back without subscribing anyone, also while
    an observer is being recorded. *)
Theorem setValue_untracked_key
    (fuel : nat) (root : value) (path : string) (v : value)
    (s s1 : state) (a : nat) :
  reduce_get proto_get (removelast (split_dot path)) root s = Ret (VObj a) s1 ->
  a < length (heap s1) ->
  (forall d, own_prop (List.last (split_dot path) "") (props_of s1 a)
             <> Some (PAccessor d)) ->
  (own_prop (List.last (split_dot path) "") (props_of s1 a) = None ->
   proto_get (VObj a) (List.last (split_dot path) "") = None) ->
  exists s',
    setValue proto_get native_call fuel root path v s = Ret tt s'
    /\ cells s' = cells s1 /\ calls s' = calls s /\ console s' = console s
    /\ own_prop (List.last (split_dot path) "") (props_of s' a) = Some (PData v)
    /\ (forall k', k' <> List.last (split_dot path) "" ->
          own_prop k' (props_of s' a) = own_prop k' (props_of s1 a))
    /\ (forall b, b <> a -> props_of s' b = props_of s1 b)
    /\ get_prop proto_get (VObj a) (List.last (split_dot path) "") s' = Ret v s'.
Proof.
  intros Hw Ha Hk _. set (k := List.last (split_dot path) "") in *.
  set (s' := with_heap (alter (define_prop k (PData v)) a (heap s1)) s1).
  assert (E : setValue proto_get native_call fuel root path v s = Ret tt s').
  { unfold setValue, setValue_with, bind. rewrite Hw. fold k.
    unfold assign, put_prop.
    destruct (own_prop k (props_of s1 a)) as [[x|d]|] eqn:Eo; try done.
    by destruct (Hk d). }
  pose proof (reduce_get_read_only proto_get _ _ _ : final (reduce_get proto_get (removelast (split_dot path)) root s) _) as R.
  rewrite Hw in R. simpl in R. destruct R as (_&_&_&Hco&Hca&_).
  assert (P : props_of s' a = define_prop k (PData v) (props_of s1 a)).
  { by apply props_of_define_eq. }
  exists s'. split; [exact E|]. split; [done|]. split; [done|]. split; [done|].
  split; [by rewrite P, own_prop_define_eq|]. split; [|split].
  - intros k' Hk'. rewrite P. by apply own_prop_define_ne.
  - intros b Hb. by apply props_of_define_ne.
  - unfold get_prop. rewrite P, own_prop_define_eq. done.
Qed.

(** ** Construction of watchers *)

Lemma Watcher_new_frame
    (data : value) (exp : string) (cb : list action) (s : state) (w : nat) (s' : state) :
  Watcher_new proto_get data exp cb s = Ret w s' ->
  w = length (watchers s)
  /\ watchers s' = (watchers s ++ [Watcher data exp cb])%list
  /\ target s' = None
  /\ heap s' = heap s /\ calls s' = calls s /\ console s' = console s
  /\ length (cells s') = length (cells s)
  /\ (forall d, c_value (cell_of s' d) = c_value (cell_of s d))
  /\ adds_only w s s'.
Proof.
  unfold Watcher_new, bind. set (s1 := with_target _ _).
  pose proof (getValue_frame data exp s1) as F.
  destruct (getValue proto_get data exp s1) as [x s2|e s2|]; try done.
  intros H. injection H as <- <-. simpl in F.
  destruct F as ((Hh&Hw&_&Hco&Hca&Hl&Hc) & _ & A).
  split; [done|]. split; [exact Hw|]. split; [done|]. split; [exact Hh|].
  split; [exact Hca|]. split; [exact Hco|]. split; [exact Hl|]. split.
  - intros d. apply (Hc d).
  - exact (A _ eq_refl).
Qed.

(** X5: when the constructor of [Watcher] returns, the new watcher is
    the last of the watchers, [Dep.target] is [null] (also when another
    recording was in progress before: the constructor does not restore
    it), no object, stored value or log has changed and no callback was
    called, and every subscriber set is as before or has taken in the new
    watcher. *)
Theorem Watcher_new_effects
    (data : value) (exp : string) (cb : list action) (s : state) (w : nat) (s' : state) :
  Watcher_new proto_get data exp cb s = Ret w s' ->
  w = length (watchers s)
  /\ watchers s' = (watchers s ++ [Watcher data exp cb])%list
  /\ target s' = None
  /\ heap s' = heap s /\ calls s' = calls s /\ console s' = console s
  /\ length (cells s') = length (cells s)
  /\ (forall d, c_value (cell_of s' d) = c_value (cell_of s d))
  /\ adds_only w s s'.
Proof. exact (Watcher_new_frame data exp cb s w s'). Qed.

(** ** Notification of the callbacks the repository has *)

(** X6: a write of a value that is not an object to a tracked slot whose
    subscribers have callbacks that only read, with paths that resolve
    once the value is stored, outside any recording and with a message
    that can be built: the write returns; the state it leaves is the one
    with the value stored and the message printed, plus one call per
    subscriber, in the order of subscription, each with the value its
    watcher reads again.  Objects, subscriber sets and [Dep.target] are
    as before. *)
Theorem write_with_reading_callbacks
    (fuel : nat) (s : state) (d : nat) (v : value) :
  target s = None ->
  strict_eq v (c_value (cell_of s d)) = false ->
  message proto_get native_call d v s = Ret tt s ->
  (forall a, v <> VObj a) ->
  (forall w, w ∈ subs_of s d ->
     reader proto_get (written d v s) w
     /\ is_Some (reread proto_get (written d v s) w)) ->
  length (subs_of s d) + 1 < fuel ->
  reactive_set proto_get native_call fuel d v s =
  Ret tt (with_calls (calls s ++ reports proto_get (written d v s) (subs_of s d))
            (written d v s)).
Proof. exact (write_to_readers proto_get native_call fuel s d v). Qed.

(** X7: an update that throws ends the notification.  When the message
    of the write can be built, the first subscribers of the slot are
    readers whose paths resolve and the path of the next one does not
    resolve once the value is stored, the write throws a [TypeError]: the
    value stays stored, the subscribers before the failing one have been
    called, and neither the failing one nor any subscriber after it is
    called. *)
Theorem write_aborted_by_failing_update
    (fuel : nat) (s : state) (d : nat) (v : value)
    (pre : list nat) (w : nat) (rest : list nat) (W : watcher) :
  target s = None ->
  strict_eq v (c_value (cell_of s d)) = false ->
  message proto_get native_call d v s = Ret tt s ->
  (forall a, v <> VObj a) ->
  subs_of s d = (pre ++ w :: rest)%list ->
  (forall w', w' ∈ pre ->
     reader proto_get (written d v s) w'
     /\ is_Some (reread proto_get (written d v s) w')) ->
  watchers s !! w = Some W ->
  result_of (getValue proto_get (w_data W) (w_exp W) (written d v s)) = Some (inr TypeError) ->
  length pre + 1 < fuel ->
  reactive_set proto_get native_call fuel d v s =
  Throw TypeError
    (with_calls (calls s ++ reports proto_get (written d v s) pre) (written d v s)).
Proof.
  intros Ht Hne Hm Hv Hsubs Hr HW Hth Hf. destruct fuel as [|f]; [lia|].
  rewrite (reactive_set_changed proto_get native_call f d v s s Hne Hm). unfold bind.
  rewrite observe_non_object by done.
  set (s1 := written d v s) in *. unfold Dep_notify.
  assert (Hs : subs_of s1 d = (pre ++ w :: rest)%list).
  { unfold s1. by rewrite subs_of_written. }
  rewrite <- (with_calls_id s1) at 1.
  replace f with (length pre + (f - length pre)) at 2 by lia.
  rewrite (notify_from_quiet_run _ _ d s1 pre).
  - destruct (f - length pre) as [|f'] eqn:Ef; [lia|]. simpl.
    change (subs_of (with_calls _ s1) d) with (subs_of s1 d). rewrite Hs.
    rewrite lookup_app_r by lia. rewrite Nat.sub_diag. simpl.
    unfold bind, Watcher_update.
    change (watchers (with_calls _ s1)) with (watchers s). rewrite HW.
    unfold bind, getValue in *. rewrite reduce_get_with_calls.
    pose proof (reduce_get_untargeted proto_get (split_dot (w_exp W)) (w_data W) s1 Ht) as U.
    destruct (reduce_get proto_get (split_dot (w_exp W)) (w_data W) s1) as [x s2|e s2|];
      simpl in *; try done. subst s2. by destruct e.
  - intros j w' Hj. rewrite Hs. rewrite Nat.add_0_l. by apply lookup_app_l_Some.
  - apply readers_quiet; [done|]. exact Hr.
Qed.

(** ** The binding of [v-model] *)

Lemma same_values_sym s s' : same_values s s' -> same_values s' s.
Proof. intros [H V]. split; [done|]. intros d. by rewrite V. Qed.

Lemma untargeted_result ks o s v :
  target s = None ->
  result_of (reduce_get proto_get ks o s) = Some (inl v) ->
  reduce_get proto_get ks o s = Ret v s.
Proof.
  intros Ht H. pose proof (reduce_get_untargeted proto_get ks o s Ht) as U.
  destruct (reduce_get proto_get ks o s) as [x s1|e s1|]; simpl in *; by simplify_eq.
Qed.

Lemma bindModel_frame (data : value) (exp : string) (s : state) :
  target s = None ->
  match bindModel proto_get data exp s with
  | Ret w s' =>
      w = length (watchers s)
      /\ watchers s' = (watchers s ++ [Watcher data exp (updateValue_cb data exp)])%list
      /\ target s' = None /\ same_values s s' /\ calls s' = calls s
      /\ console s' = console s /\ length (cells s') = length (cells s)
      /\ adds_only w s s' /\ resolves proto_get s' data exp
  | Throw e s' => s' = s
  | OutOfFuel => False
  end.
Proof.
  intros Ht. unfold bindModel, updateValue, bind, ret.
  pose proof (getValue_frame data exp s) as F.
  destruct (getValue proto_get data exp s) as [v s1|e s1|] eqn:G; simpl in F;
    [|by apply F|done].
  destruct F as (_ & U & _). rewrite (U Ht) in *. clear U s1.
  destruct (Watcher_new proto_get data exp (updateValue_cb data exp) s)
    as [w s'|e s'|] eqn:N.
  - destruct (Watcher_new_frame _ _ _ _ _ _ N) as (Hw&Hws&Ht'&Hh&Hca&Hco&Hl&Hv&Ha).
    assert (SV : same_values s s') by (by split).
    repeat (split; [done|]). exists v, s'. apply untargeted_result; [done|].
    unfold getValue in *.
    rewrite <- (reduce_get_same_values (split_dot exp) data s s' SV). by rewrite G.
  - exfalso. unfold Watcher_new, bind in N. set (s1 := with_target _ _) in N.
    assert (SV : same_values s s1) by (by split).
    pose proof (reduce_get_same_values (split_dot exp) data s s1 SV) as E.
    unfold getValue in *. rewrite G in E.
    destruct (reduce_get proto_get (split_dot exp) data s1); simpl in *; done.
  - exfalso. unfold Watcher_new, bind in N. set (s1 := with_target _ _) in N.
    pose proof (reduce_get_fuel proto_get (split_dot exp) data s1) as E.
    unfold getValue in *.
    destruct (reduce_get proto_get (split_dot exp) data s1); simpl in *; done.
Qed.

(** X8: [bindModel] cannot leave a recording open.  Started outside any
    recording it always ends; when it throws, it throws in its first read,
    before any watcher exists, and the state is as it was; when it
    returns, the one new watcher is the last of the watchers, its path
    resolves, [Dep.target] is [null], the data and the logs are as before
    and the subscriber sets changed at most by taking in the new
    watcher. *)
Theorem bindModel_outcome (data : value) (exp : string) (s : state) :
  target s = None ->
  match bindModel proto_get data exp s with
  | Ret w s' =>
      w = length (watchers s)
      /\ watchers s' = (watchers s ++ [Watcher data exp (updateValue_cb data exp)])%list
      /\ target s' = None /\ same_values s s' /\ calls s' = calls s
      /\ console s' = console s /\ length (cells s') = length (cells s)
      /\ adds_only w s s' /\ resolves proto_get s' data exp
  | Throw e s' => s' = s
  | OutOfFuel => False
  end.
Proof. exact (bindModel_frame data exp s). Qed.

Lemma split_dot_last path :
  split_dot path = (removelast (split_dot path) ++ [List.last (split_dot path) ""])%list.
Proof.
  apply app_removelast_last. destruct (split_dot_cons path) as (k & r & ->). done.
Qed.

(** The read of the constructor reaches the slot of the last segment. *)
Lemma Watcher_new_joins_last_slot data exp cb s w s' a d :
  Watcher_new proto_get data exp cb s = Ret w s' ->
  result_of (reduce_get proto_get (removelast (split_dot exp)) data s)
    = Some (inl (VObj a)) ->
  tracked s a (List.last (split_dot exp) "") d ->
  subs_of s' d = addSub w (subs_of s d).
Proof.
  intros N Hwalk [Hp Hd].
  pose proof (Watcher_new_frame _ _ _ _ _ _ N) as (Hw & _).
  unfold Watcher_new, bind, getValue in N. set (s1 := with_target _ _) in N.
  rewrite split_dot_last, reduce_get_app in N. unfold bind in N.
  assert (SV : same_values s s1) by (by split).
  rewrite (reduce_get_same_values _ data s s1 SV) in Hwalk.
  pose proof (reduce_get_read_only proto_get (removelast (split_dot exp)) data s1) as R.
  pose proof (reduce_get_adds_only (removelast (split_dot exp)) data s1
                (length (watchers s)) eq_refl) as A.
  destruct (reduce_get proto_get (removelast (split_dot exp)) data s1)
    as [x s2|e s2|]; simpl in *; try done.
  injection Hwalk as ->.
  destruct R as (Hh&_&Ht&_&_&Hl&_).
  assert (Hp2 : own_prop (List.last (split_dot exp) "") (props_of s2 a)
                = Some (PAccessor d)).
  { unfold props_of in *. by rewrite Hh. }
  simpl in N. unfold bind in N.
  rewrite (get_prop_tracked proto_get s2 a _ d (length (watchers s)) Hp2 Ht) in N.
  simpl in N. injection N as <- <-.
  change (subs_of (with_target None _) d)
    with (subs_of (Dep_addSub d (length (watchers s)) s2) d).
  rewrite subs_addSub_eq by (rewrite Hl; exact Hd).
  destruct (A d) as [E|E]; rewrite E; [done|]. apply addSub_addSub.
Qed.

(** X9: the two-way binding.  Let [bindModel] have bound the path [exp],
    whose last segment is a tracked slot holding a value that has a text,
    and let the other subscribers of that slot be readers.  An input
    event with a text other than the stored value then returns; the model
    holds the text ([getValue] of [exp] gives it); the callback of the
    binding is called exactly once, with the text; and the same event
    once more changes nothing. *)
Theorem v_model_round_trip
    (fuel : nat) (data : value) (exp text : string)
    (s0 s : state) (w a d : nat) :
  target s0 = None ->
  bindModel proto_get data exp s0 = Ret w s ->
  reduce_get proto_get (removelast (split_dot exp)) data s0 = Ret (VObj a) s0 ->
  tracked s0 a (List.last (split_dot exp) "") d ->
  strict_eq (VStr text) (c_value (cell_of s0 d)) = false ->
  ToString proto_get native_call (c_value (cell_of s0 d)) s = Ret tt s ->
  NoDup (subs_of s0 d) ->
  (forall w', w' ∈ subs_of s0 d ->
     reader proto_get (written d (VStr text) s) w'
     /\ is_Some (reread proto_get (written d (VStr text) s) w')) ->
  result_of (reduce_get proto_get (removelast (split_dot exp)) data
               (written d (VStr text) s)) = Some (inl (VObj a)) ->
  length (subs_of s0 d) + 2 < fuel ->
  exists s',
    on_input proto_get native_call fuel data exp text s = Ret tt s'
    /\ getValue proto_get data exp s' = Ret (VStr text) s'
    /\ count_calls w (new_calls s s') = 1
    /\ (w, VStr text) ∈ new_calls s s'
    /\ on_input proto_get native_call fuel data exp text s' = Ret tt s'.
Proof.
  intros Ht Hb Hwalk Htr Hne Htext Hnd Hothers Hwalk' Hf.
  set (k := List.last (split_dot exp) "") in *.
  set (init := removelast (split_dot exp)) in *.
  pose proof (bindModel_frame data exp s0 Ht) as B. rewrite Hb in B.
  destruct B as (Hw & Hws & Hts & SV & Hca & Hco & Hl & Ha & _).
  pose proof SV as [Hh Hv]. destruct Htr as [Hp Hd].
  (* the new watcher is in the set of the slot *)
  assert (Hsubs : subs_of s d = addSub w (subs_of s0 d)).
  { unfold bindModel, updateValue, bind, ret in Hb.
    pose proof (getValue_frame data exp s0) as F.
    destruct (getValue proto_get data exp s0) as [v s1|e s1|]; simpl in F; try done.
    destruct F as (_ & U & _). rewrite (U Ht) in Hb.
    eapply Watcher_new_joins_last_slot; [exact Hb| |by split].
    fold init. by rewrite Hwalk. }
  assert (Hnd' : NoDup (subs_of s d)) by (rewrite Hsubs; by apply addSub_NoDup).
  assert (Hin : w ∈ subs_of s d) by (rewrite Hsubs; apply addSub_elem).
  (* the state once the text is stored *)
  set (s1 := written d (VStr text) s) in *.
  assert (Ht1 : target s1 = None) by exact Hts.
  assert (Hp1 : own_prop k (props_of s1 a) = Some (PAccessor d)).
  { change (props_of s1 a) with (props_of s a). unfold props_of in *. by rewrite Hh. }
  assert (Hwalk1 : reduce_get proto_get init data s1 = Ret (VObj a) s1)
    by (by apply untargeted_result).
  assert (Hval1 : c_value (cell_of s1 d) = VStr text).
  { apply c_value_written. lia. }
  assert (G1 : getValue proto_get data exp s1 = Ret (VStr text) s1).
  { unfold getValue. rewrite split_dot_last, reduce_get_app. unfold bind.
    fold init k. rewrite Hwalk1. simpl. unfold bind, get_prop, reactive_get.
    by rewrite Hp1, Ht1, Hval1. }
  assert (HW : watchers s1 !! w = Some (Watcher data exp (updateValue_cb data exp))).
  { change (watchers s1) with (watchers s). rewrite Hws, Hw.
    rewrite lookup_app_r by lia. by rewrite Nat.sub_diag. }
  assert (Hrr : reread proto_get s1 w = Some (VStr text)).
  { unfold reread. rewrite HW. simpl. by rewrite G1. }
  assert (Hreaders : forall w', w' ∈ subs_of s d ->
            reader proto_get s1 w' /\ is_Some (reread proto_get s1 w')).
  { intros w' Hw'. rewrite Hsubs in Hw'. unfold addSub in Hw'.
    destruct (decide (w ∈ subs_of s0 d)) as [Hold|Hnew].
    - by apply Hothers.
    - apply elem_of_app in Hw' as [Hw'|Hw']; [by apply Hothers|].
      apply list_elem_of_singleton in Hw'. subst w'. split; [|by rewrite Hrr].
      eexists. split; [exact HW|]. simpl. constructor; [|constructor].
      exists data, exp. split; [done|]. by exists (VStr text), s1. }
  assert (Hne' : strict_eq (VStr text) (c_value (cell_of s d)) = false)
    by (by rewrite Hv).
  assert (Hlen : length (subs_of s d) <= S (length (subs_of s0 d))).
  { rewrite Hsubs. unfold addSub. case_decide; [lia|]. rewrite length_app. simpl. lia. }
  assert (Hm : message proto_get native_call d (VStr text) s = Ret tt s).
  { unfold message, bind. rewrite Hv, Htext. by apply ToString_primitive. }
  pose proof (write_to_readers proto_get native_call fuel s d (VStr text) Hts Hne' Hm
                ltac:(done) Hreaders ltac:(lia)) as E.
  fold s1 in E.
  set (s' := with_calls (calls s ++ reports proto_get s1 (subs_of s d)) s1) in *.
  (* the event *)
  assert (Hwalks : reduce_get proto_get init data s = Ret (VObj a) s).
  { apply untargeted_result; [done|].
    rewrite <- (reduce_get_same_values init data s0 s SV). by rewrite Hwalk. }
  assert (Hps : own_prop k (props_of s a) = Some (PAccessor d)) by exact Hp1.
  assert (Ev : on_input proto_get native_call fuel data exp text s = Ret tt s').
  { unfold on_input, setValue, setValue_with, bind. fold init k. rewrite Hwalks.
    unfold assign, put_prop. rewrite Hps. exact E. }
  assert (N : new_calls s s' = reports proto_get s1 (subs_of s d)).
  { unfold new_calls, s'. simpl. by rewrite drop_app_length. }
  exists s'. split; [exact Ev|]. split; [|split; [|split]].
  - unfold getValue in *. unfold s'. by rewrite reduce_get_with_calls, G1.
  - rewrite N, count_calls_reports by done. by rewrite decide_True.
  - rewrite N. unfold reports. apply list_elem_of_fmap.
    exists w. split; [by rewrite Hrr|done].
  - unfold on_input, setValue, setValue_with, bind. fold init k.
    unfold s' at 1. rewrite reduce_get_with_calls, Hwalk1.
    cbn [lift_state]. fold s'.
    unfold assign, put_prop. change (props_of s' a) with (props_of s1 a). rewrite Hp1.
    destruct fuel as [|f]; [lia|]. apply reactive_set_same.
    change (cell_of s' d) with (cell_of s1 d). rewrite Hval1. simpl.
    apply String.eqb_refl.
Qed.

(** ** Interception seen from outside *)

Lemma silent_refl s : silent s s.
Proof. by repeat split. Qed.

Lemma silent_trans s1 s2 s3 : silent s1 s2 -> silent s2 s3 -> silent s1 s3.
Proof. intros (?&?&?&?) (?&?&?&?). repeat split; congruence. Qed.

Lemma silently_bind {A B} (m : M A) (f : A -> M B) s :
  silently s (m s) -> (forall x s1, silently s1 (f x s1)) -> silently s (bind m f s).
Proof.
  intros Hm Hf. unfold bind. destruct (m s) as [x s1|e s1|]; simpl in *; try done.
  specialize (Hf x s1). destruct (f x s1); simpl in *; try done.
  by eapply silent_trans.
Qed.

Lemma silently_forEach {A} (l : list A) (f : A -> M unit) :
  (forall x s, silently s (f x s)) -> forall s, silently s (forEach l f s).
Proof.
  intros Hf. induction l as [|x l IH]; intros s; simpl; [apply silent_refl|].
  apply silently_bind; [apply Hf|]. intros _ s1. apply IH.
Qed.

Lemma read_only_silent s s' : read_only s s' -> silent s s'.
Proof. intros (_&?&?&?&?&_). by repeat split. Qed.

Lemma observe_silently (fuel : nat) (v : value) (s : state) :
  silently s (observe proto_get fuel v s).
Proof.
  revert v s. induction fuel as [|f IH]; intros v s;
    destruct v as [| |b|n| |t|a|nm]; try apply silent_refl; [done|].
  simpl. apply silently_forEach. intros key s0.
  apply silently_bind.
  - pose proof (get_prop_read_only proto_get (VObj a) key s0) as R.
    pose proof (get_prop_throw proto_get (VObj a) key s0) as T.
    destruct (get_prop proto_get (VObj a) key s0) as [x s1|e s1|]; simpl in *.
    + by apply read_only_silent.
    + destruct (T e s1 eq_refl) as ([?|?]&_); done.
    + done.
  - intros x s1. unfold defineReactive. apply silently_bind; [by repeat split|].
    intros d s2. apply silently_bind; [apply IH|]. intros _ s3. by repeat split.
Qed.

(** X10: an interception that returns has called no callback, printed
    nothing and left the watchers and [Dep.target] as they were. *)
Theorem observe_returns_silent (fuel : nat) (v : value) (s s' : state) :
  observe proto_get fuel v s = Ret tt s' -> silent s s'.
Proof. intros H. pose proof (observe_silently fuel v s) as Q. by rewrite H in Q. Qed.

Lemma reads_alike_read s s' s1 s1' :
  reads_alike s s' -> read_only s s1 -> read_only s' s1' -> reads_alike s1 s1'.
Proof.
  intros [K C] (H1&_&_&_&_&_&V1) (H2&_&_&_&_&_&V2).
  assert (P1 : forall a, props_of s1 a = props_of s a) by (intros; unfold props_of; by rewrite H1).
  assert (P2 : forall a, props_of s1' a = props_of s' a) by (intros; unfold props_of; by rewrite H2).
  assert (C1 : forall a k, child s1 a k = child s a k).
  { intros a k. unfold child. rewrite P1.
    destruct (own_prop k (props_of s a)) as [[v|d]|]; try done. simpl. apply V1. }
  assert (C2 : forall a k, child s1' a k = child s' a k).
  { intros a k. unfold child. rewrite P2.
    destruct (own_prop k (props_of s' a)) as [[v|d]|]; try done. simpl. apply V2. }
  split.
  - intros a. unfold keys_of. rewrite P1, P2. apply K.
  - intros a k. by rewrite C2, C1.
Qed.

Lemma get_prop_value o k s x s1 :
  get_prop proto_get o k s = Ret x s1 ->
  match o with
  | VObj a => if decide (k ∈ keys_of s a) then x = child s a k
              else x = default VUndef (proto_get o k)
  | _ => x = default VUndef (proto_get o k)
  end.
Proof.
  unfold get_prop, reactive_get, child. destruct o as [| |b|n| |t|a|nm]; try done;
    try (intros ?; by simplify_eq).
  pose proof (own_prop_Some_keys k (props_of s a)) as I. fold (keys_of s a) in I.
  destruct (own_prop k (props_of s a)) as [[v|d]|] eqn:E; intros H; simplify_eq.
  - rewrite decide_True by (apply I; eauto). done.
  - rewrite decide_True by (apply I; eauto). done.
  - rewrite decide_False; [done|]. intros Hk. apply I in Hk as [? ?]. done.
Qed.

Lemma get_prop_reads_alike o k s s' :
  reads_alike s s' ->
  match get_prop proto_get o k s, get_prop proto_get o k s' with
  | Ret x s1, Ret x' s1' => x = x' /\ reads_alike s1 s1'
  | Throw e s1, Throw e' s1' => e = e'
  | _, _ => False
  end.
Proof.
  intros RA. pose proof RA as [K C].
  pose proof (get_prop_read_only proto_get o k s) as R.
  pose proof (get_prop_read_only proto_get o k s') as R'.
  pose proof (get_prop_value o k s) as V. pose proof (get_prop_value o k s') as V'.
  pose proof (get_prop_throw proto_get o k s) as T.
  pose proof (get_prop_throw proto_get o k s') as T'.
  pose proof (get_prop_fuel proto_get o k s) as F.
  pose proof (get_prop_fuel proto_get o k s') as F'.
  destruct (get_prop proto_get o k s) as [x s1|e s1|] eqn:E1,
           (get_prop proto_get o k s') as [x' s1'|e' s1'|] eqn:E2; simpl in *; try done.
  - split; [|by eapply reads_alike_read].
    specialize (V x s1 eq_refl). specialize (V' x' s1' eq_refl).
    destruct o as [| |b|n| |t|a|nm]; try congruence.
    rewrite K, C in V'. destruct (decide (k ∈ keys_of s a)); congruence.
  - destruct (T' e' s1' eq_refl) as ([-> | ->]&_); done.
  - destruct (T e s1 eq_refl) as ([-> | ->]&_); done.
  - by destruct e, e'.
Qed.

Lemma reduce_get_reads_alike ks : forall o s s',
  reads_alike s s' ->
  result_of (reduce_get proto_get ks o s) = result_of (reduce_get proto_get ks o s').
Proof.
  induction ks as [|k ks IH]; intros o s s' RA; [done|].
  simpl. unfold bind. pose proof (get_prop_reads_alike o k s s' RA) as G.
  destruct (get_prop proto_get o k s) as [x s1|e s1|],
           (get_prop proto_get o k s') as [x' s1'|e' s1'|]; try done.
  - destruct G as [-> RA1]. by apply IH.
  - by subst.
Qed.

(** X11: interception is transparent to reads.  Intercepting a tree
    returns; every object keeps its keys, in their order; and afterwards
    every [getValue], from any root and on any path, returns the value or
    throws the exception it did before. *)
Theorem observe_keeps_reads (n : nat) (root : value) (s : state) :
  wf_heap s -> bounded n s root = true ->
  exists s',
    observe proto_get n root s = Ret tt s'
    /\ (forall a, keys_of s' a = keys_of s a)
    /\ forall data path,
         result_of (getValue proto_get data path s')
         = result_of (getValue proto_get data path s).
Proof.
  intros W Hb. destruct (observe_total proto_get n root s W Hb) as (s' & E & T & _).
  destruct T as (_&_&K&C&_).
  exists s'. split; [exact E|]. split; [exact K|]. intros data path. symmetry.
  apply reduce_get_reads_alike. by split.
Qed.

(** ** Interception of data that is not a tree *)

Section InterceptReturns.
Variable f : nat.
Hypothesis IHf : forall v s s',
  wf_heap s -> observe proto_get f v s = Ret tt s' -> same_tree s s'.

Lemma intercept_key_returns a k s0 s1 :
  wf_heap s0 -> k ∈ keys_of s0 a ->
  (let* v := get_prop proto_get (VObj a) k in
   defineReactive (observe proto_get f) a k v) s0 = Ret tt s1 ->
  same_tree s0 s1
  /\ exists sb sc, same_tree s0 sb
                   /\ observe proto_get f (child s0 a k) sb = Ret tt sc.
Proof.
  intros W0 Hk H. unfold bind in H.
  destruct (get_prop_own proto_get s0 a k W0 Hk) as (sa & Eg & Ra).
  rewrite Eg in H. set (x := child s0 a k) in *.
  pose proof (read_only_same_tree s0 sa W0 Ra) as Ta.
  pose proof (same_tree_wf _ _ Ta) as Wa.
  unfold defineReactive, bind in H.
  destruct (new_Dep k x sa) as [d sb|e sb|] eqn:En; try done.
  destruct (new_Dep_same_tree k x sa d sb Wa En) as (Tb & Hd & Ld & Vd).
  pose proof (same_tree_wf _ _ Tb) as Wb.
  destruct (observe proto_get f x sb) as [[] sc|e sc|] eqn:Eo; try done.
  pose proof (IHf x sb sc Wb Eo) as Tc.
  pose proof Tc as (Lc&Vc&Kc&Cc&Trc&Wc).
  assert (T0c : same_tree s0 sc).
  { eapply same_tree_trans; [exact Ta|]. by eapply same_tree_trans. }
  pose proof T0c as (_&_&K0c&C0c&_&_).
  destruct (defineProperty_same_tree sc a k d s1) as (Td & _ & _); try done.
  { by rewrite K0c. }
  { lia. }
  { rewrite Vc by done. rewrite Vd. symmetry. apply C0c. }
  split; [eapply same_tree_trans; [exact T0c|exact Td]|].
  exists sb, sc. split; [eapply same_tree_trans; [exact Ta|exact Tb]|done].
Qed.

Lemma intercept_keys_returns a : forall ks s0 s',
  wf_heap s0 -> (forall k, k ∈ ks -> k ∈ keys_of s0 a) ->
  forEach ks (fun key => let* v := get_prop proto_get (VObj a) key in
                         defineReactive (observe proto_get f) a key v) s0 = Ret tt s' ->
  same_tree s0 s'.
Proof.
  induction ks as [|k ks IH]; intros s0 s' W0 Hks H.
  - simpl in H. unfold ret in H. simplify_eq. by apply same_tree_refl.
  - simpl in H. unfold bind at 1 in H.
    destruct ((let* v := get_prop proto_get (VObj a) k in
               defineReactive (observe proto_get f) a k v) s0)
      as [[] s1|e s1|] eqn:E; try done.
    destruct (intercept_key_returns a k s0 s1 W0) as (T1 & _); [apply Hks; by left|done|].
    eapply same_tree_trans; [exact T1|]. apply IH; [by eapply same_tree_wf| |done].
    intros k' Hk'. destruct T1 as (_&_&K&_). rewrite K. apply Hks. by right.
Qed.
End InterceptReturns.

(** Whenever interception returns it has kept the tree. *)
Lemma observe_returns_same_tree fuel : forall v s s',
  wf_heap s -> observe proto_get fuel v s = Ret tt s' -> same_tree s s'.
Proof.
  induction fuel as [|f IH]; intros v s s' W H.
  - destruct v as [| |b|n| |t|a|nm]; simpl in H; try done;
      unfold ret in H; simplify_eq; by apply same_tree_refl.
  - destruct v as [| |b|n| |t|a|nm];
      try (simpl in H; unfold ret in H; simplify_eq; by apply same_tree_refl).
    simpl in H. eapply (intercept_keys_returns f IH a); [done| |exact H]. done.
Qed.

Section SelfReference.
Variables (f : nat) (a : nat) (k : string).
Hypothesis IHf : forall s,
  wf_heap s -> k ∈ keys_of s a -> child s a k = VObj a ->
  observe proto_get f (VObj a) s = OutOfFuel.

Lemma intercept_keys_self : forall ks s0 s',
  wf_heap s0 -> (forall k', k' ∈ ks -> k' ∈ keys_of s0 a) ->
  k ∈ ks -> child s0 a k = VObj a ->
  forEach ks (fun key => let* v := get_prop proto_get (VObj a) key in
                         defineReactive (observe proto_get f) a key v) s0 <> Ret tt s'.
Proof.
  induction ks as [|k' ks IH]; intros s0 s' W0 Hks Hk Hc H.
  - by apply elem_of_nil in Hk.
  - simpl in H. unfold bind at 1 in H.
    destruct ((let* v := get_prop proto_get (VObj a) k' in
               defineReactive (observe proto_get f) a k' v) s0)
      as [[] s1|e s1|] eqn:E; try done.
    destruct (intercept_key_returns f (observe_returns_same_tree f) a k' s0 s1 W0)
      as (T1 & sb & sc & Tb & Eo); [apply Hks; by left|done|].
    destruct (decide (k' = k)) as [->|Hne].
    + rewrite Hc in Eo. rewrite IHf in Eo; [done|by eapply same_tree_wf| |].
      * destruct Tb as (_&_&K&_). rewrite K. apply Hks. by left.
      * destruct Tb as (_&_&_&C&_). by rewrite C.
    + apply (IH s1 s'); try done.
      * by eapply same_tree_wf.
      * intros k2 Hk2. destruct T1 as (_&_&K&_). rewrite K. apply Hks. by right.
      * apply elem_of_cons in Hk as [?|?]; [by subst|done].
      * destruct T1 as (_&_&_&C&_). by rewrite C.
Qed.
End SelfReference.

(** X12: interception of an object that holds itself under one of its
    keys never returns: the recursion of [observe] has no end, whatever
    the fuel (in the engine, the call stack overflows). *)
Theorem observe_self_reference (fuel : nat) (s : state) (a : nat) (k : string) :
  wf_heap s -> k ∈ keys_of s a -> child s a k = VObj a ->
  observe proto_get fuel (VObj a) s = OutOfFuel.
Proof.
  revert s. induction fuel as [|f IH]; intros s W Hk Hc; [done|].
  pose proof (observe_silently (S f) (VObj a) s) as Q.
  destruct (observe proto_get (S f) (VObj a) s) as [[] s'|e s'|] eqn:E; try done.
  exfalso. simpl in E.
  by eapply (intercept_keys_self f a k IH (keys_of s a) s s').
Qed.

(** ** Interception of what is already intercepted *)

Global Instance renewed_preorder : PreOrder renewed.
Proof.
  split.
  - intros s. split; [done|]. intros a k d H. exists d. auto.
  - intros s1 s2 s3 [L1 H1] [L2 H2]. split; [lia|]. intros a k d H.
    destruct (H1 a k d H) as (d' & H' & Hd').
    destruct (H2 a k d' H') as (d'' & H'' & Hd''). exists d''. split; [done|].
    destruct Hd'' as [->|?]; [|right; lia]. exact Hd'.
Qed.

Global Instance unrecorded_preorder : PreOrder unrecorded.
Proof.
  split.
  - intros s Ht. split; [done|]. split; [done|]. intros d Hd.
    unfold subs_of, cell_of. by rewrite lookup_ge_None_2.
  - intros s1 s2 s3 H1 H2 Ht. destruct (H1 Ht) as (Ht2 & P1 & E1).
    destruct (H2 Ht2) as (Ht3 & P2 & E2). split; [done|]. split; [by etrans|].
    intros d Hd. destruct (decide (length (cells s2) <= d)) as [?|Hlt]; [by apply E2|].
    rewrite <- (E1 d Hd). unfold subs_of, cell_of.
    destruct (lookup_lt_is_Some_2 (cells s2) d ltac:(lia)) as [c Hc].
    by rewrite Hc, (prefix_lookup_Some _ _ _ _ Hc P2).
Qed.

Lemma unrecorded_refl s : unrecorded s s.
Proof. reflexivity. Qed.

Lemma get_prop_unrecorded o k : preserves unrecorded (get_prop proto_get o k).
Proof.
  intros s x s' H Ht. pose proof (get_prop_untargeted proto_get o k s Ht) as U.
  rewrite H in U. simpl in U. subst s'. exact (unrecorded_refl s Ht).
Qed.

Lemma new_Dep_unrecorded key v : preserves unrecorded (new_Dep key v).
Proof.
  intros s x s' H Ht. unfold new_Dep in H. simplify_eq. split; [done|]. split.
  - simpl. by apply prefix_app_r.
  - intros d Hd. unfold subs_of, cell_of. simpl.
    destruct (decide (d = length (cells s))) as [->|Hne].
    + rewrite lookup_app_r by lia. by rewrite Nat.sub_diag.
    + rewrite lookup_ge_None_2; [done|]. rewrite length_app. simpl. lia.
Qed.

Lemma defineProperty_unrecorded a key p : preserves unrecorded (defineProperty a key p).
Proof.
  intros s x s' H Ht. unfold defineProperty in H. simplify_eq.
  exact (unrecorded_refl s Ht).
Qed.

Lemma observe_unrecorded fuel v : preserves unrecorded (observe proto_get fuel v).
Proof.
  revert v. induction fuel as [|f IH]; intros v.
  - destruct v; try (apply preserves_ret; tc_solve). intros s x s' H; done.
  - destruct v; try (apply preserves_ret; tc_solve).
    intros s x s' H. simpl in H. revert H.
    apply (preserves_forEach unrecorded). intros key _.
    apply preserves_bind; [tc_solve|apply get_prop_unrecorded|]. intros y.
    unfold defineReactive. apply preserves_bind; [tc_solve|apply new_Dep_unrecorded|].
    intros d. apply preserves_bind; [tc_solve|apply IH|].
    intros _. apply defineProperty_unrecorded.
Qed.

Lemma renewed_same_heap s s' :
  heap s' = heap s -> length (cells s) <= length (cells s') -> renewed s s'.
Proof.
  intros Hh Hl. split; [done|]. intros a k d H. exists d. split; [|by left].
  unfold props_of in *. by rewrite Hh.
Qed.

Section Renewal.
Variable f : nat.
Hypothesis IHf : forall v s s',
  wf_heap s -> observe proto_get f v s = Ret tt s' -> renewed s s'.

Lemma intercept_key_renews a k s0 s1 :
  wf_heap s0 -> k ∈ keys_of s0 a ->
  (let* v := get_prop proto_get (VObj a) k in
   defineReactive (observe proto_get f) a k v) s0 = Ret tt s1 ->
  renewed s0 s1
  /\ exists d, own_prop k (props_of s1 a) = Some (PAccessor d)
               /\ length (cells s0) <= d.
Proof.
  intros W0 Hk H. unfold bind in H.
  destruct (get_prop_own proto_get s0 a k W0 Hk) as (sa & Eg & Ra).
  rewrite Eg in H. set (x := child s0 a k) in *.
  pose proof (read_only_same_tree s0 sa W0 Ra) as Ta.
  pose proof (same_tree_wf _ _ Ta) as Wa.
  unfold defineReactive, bind in H.
  destruct (new_Dep k x sa) as [d sb|e sb|] eqn:En; try done.
  destruct (new_Dep_same_tree k x sa d sb Wa En) as (Tb & Hd & Ld & Vd).
  pose proof (same_tree_wf _ _ Tb) as Wb.
  destruct (observe proto_get f x sb) as [[] sc|e sc|] eqn:Eo; try done.
  pose proof (IHf x sb sc Wb Eo) as [Lc Rc].
  pose proof (observe_returns_same_tree f x sb sc Wb Eo) as Tc.
  unfold defineProperty in H. simplify_eq.
  destruct Ra as (Hha&_&_&_&_&Hla&_).
  assert (Hhb : heap sb = heap sa) by (unfold new_Dep in En; by simplify_eq).
  assert (Hlb : length (cells sb) = S (length (cells sa))).
  { unfold new_Dep in En. simplify_eq. simpl. rewrite length_app. simpl. lia. }
  assert (Hka : k ∈ keys_of sc a).
  { destruct Tc as (_&_&Kc&_), Tb as (_&_&Kb&_), Ta as (_&_&Ka&_).
    by rewrite Kc, Kb, Ka. }
  pose proof (keys_of_nonempty sc a k Hka) as Ha.
  set (s1 := with_heap _ sc).
  assert (Pa : props_of s1 a = define_prop k (PAccessor (length (cells sa))) (props_of sc a))
    by (by apply props_of_define_eq).
  split; [split|].
  - change (cells s1) with (cells sc). lia.
  - intros b k' d' H'.
    assert (Hb' : own_prop k' (props_of sb b) = Some (PAccessor d')).
    { unfold props_of in *. by rewrite Hhb, Hha. }
    destruct (Rc b k' d' Hb') as (d2 & H2 & Hd2).
    destruct (decide (b = a /\ k' = k)) as [[-> ->]|Hne].
    + exists (length (cells sa)). rewrite Pa, own_prop_define_eq. split; [done|].
      right. lia.
    + exists d2. split; [|destruct Hd2 as [->|?]; [by left|right; lia]].
      destruct (decide (b = a)) as [->|Hb].
      * rewrite Pa, own_prop_define_ne; [done|]. intros ->. by apply Hne.
      * unfold s1. by rewrite props_of_define_ne.
  - exists (length (cells sa)). rewrite Pa, own_prop_define_eq. split; [done|]. lia.
Qed.

Lemma intercept_keys_renews a : forall ks s0 s',
  wf_heap s0 -> (forall k, k ∈ ks -> k ∈ keys_of s0 a) ->
  forEach ks (fun key => let* v := get_prop proto_get (VObj a) key in
                         defineReactive (observe proto_get f) a key v) s0 = Ret tt s' ->
  renewed s0 s'
  /\ forall k, k ∈ ks ->
       exists d, own_prop k (props_of s' a) = Some (PAccessor d)
                 /\ length (cells s0) <= d.
Proof.
  induction ks as [|k ks IH]; intros s0 s' W0 Hks H.
  - simpl in H. unfold ret in H. simplify_eq. split; [done|].
    by intros k ?%elem_of_nil.
  - simpl in H. unfold bind at 1 in H.
    destruct ((let* v := get_prop proto_get (VObj a) k in
               defineReactive (observe proto_get f) a k v) s0)
      as [[] s1|e s1|] eqn:E; try done.
    destruct (intercept_key_renews a k s0 s1 W0) as (R1 & d & Hd & Ld);
      [apply Hks; by left|done|].
    destruct (intercept_key_returns f (observe_returns_same_tree f) a k s0 s1 W0)
      as (T1 & _); [apply Hks; by left|done|].
    destruct (IH s1 s') as (R' & Fr); [by eapply same_tree_wf| |done|].
    { intros k' Hk'. destruct T1 as (_&_&K&_). rewrite K. apply Hks. by right. }
    split; [by etrans|]. intros k' [->|Hk']%elem_of_cons.
    + destruct R' as [L' R']. destruct (R' a k d Hd) as (d' & Hd' & [->|?]).
      * by exists d.
      * exists d'. split; [done|]. destruct R1 as [L1 _]. lia.
    + destruct (Fr k' Hk') as (d' & Hd' & Ld'). exists d'. split; [done|].
      destruct R1 as [L1 _]. lia.
Qed.
End Renewal.

Lemma observe_renews fuel : forall v s s',
  wf_heap s -> observe proto_get fuel v s = Ret tt s' -> renewed s s'.
Proof.
  induction fuel as [|f IH]; intros v s s' W H.
  - destruct v as [| |b|n| |t|a|nm]; simpl in H; try done;
      unfold ret in H; by simplify_eq.
  - destruct v as [| |b|n| |t|a|nm];
      try (simpl in H; unfold ret in H; by simplify_eq).
    simpl in H. by eapply (intercept_keys_renews f IH a).
Qed.

(** X13: interception does not recognise what is already intercepted.
    Outside a recording, [observe] of an object that is the root of a
    tree returns; it leaves the old closures, with their subscribers,
    untouched, and binds every property of the object, tracked before or
    not, to a closure created by this very call, whose subscriber set is
    empty: the subscribers a slot had are no longer notified of writes to
    it. *)
Theorem observe_renews_subscriber_sets (n : nat) (s : state) (a : nat) :
  wf_heap s -> target s = None -> bounded n s (VObj a) = true ->
  exists s',
    observe proto_get n (VObj a) s = Ret tt s'
    /\ cells s `prefix_of` cells s'
    /\ forall k, k ∈ keys_of s a ->
         exists d, tracked s' a k d /\ length (cells s) <= d /\ subs_of s' d = [].
Proof.
  intros W Ht Hb.
  destruct (observe_total proto_get n (VObj a) s W Hb) as (s' & E & T & _).
  destruct (observe_unrecorded n (VObj a) s tt s' E Ht) as (_ & P & Em).
  exists s'. split; [exact E|]. split; [exact P|]. intros k Hk.
  destruct n as [|m]; [done|]. simpl in E.
  destruct (intercept_keys_renews m (observe_renews m) a (keys_of s a) s s' W)
    as (_ & Fr); [done|exact E|].
  destruct (Fr k Hk) as (d & Hd & Ld). exists d.
  split; [|split; [done|by apply Em]].
  split; [done|]. destruct T as (_&_&_&_&_&W'). by eapply W'.
Qed.

(** ** Paths compose *)

Lemma split_dot_app p q :
  split_dot (String.append p (String "."%char q)) = (split_dot p ++ split_dot q)%list.
Proof.
  induction p as [|c p IH]; simpl; [done|].
  destruct (Ascii.eqb c "."%char); [by rewrite IH|].
  rewrite IH. destruct (split_dot_cons p) as (h & t & ->). done.
Qed.

Lemma removelast_app_cons {A} (l : list A) x r :
  removelast (l ++ x :: r) = (l ++ removelast (x :: r))%list.
Proof. induction l as [|y l IH]; [done|]. simpl. rewrite IH. by destruct l. Qed.

Lemma last_app_cons {A} (l : list A) x r d :
  List.last (l ++ x :: r) d = List.last (x :: r) d.
Proof. induction l as [|y l IH]; [done|]. simpl. rewrite IH. by destruct l. Qed.

(** X14: dotted paths compose.  Reading the path [p.q] is reading [q]
    from what the path [p] gives, and writing through [p.q] is writing
    through [q] into what [p] gives, with the same effects, exceptions
    included. *)
Theorem path_composition
    (fuel : nat) (root : value) (p q : string) (v : value) (s : state) :
  getValue proto_get root (String.append p (String "."%char q)) s
  = (let* x := getValue proto_get root p in getValue proto_get x q) s
  /\ setValue proto_get native_call fuel root (String.append p (String "."%char q)) v s
     = (let* x := getValue proto_get root p in setValue proto_get native_call fuel x q v) s.
Proof.
  split.
  - unfold getValue. rewrite split_dot_app. by rewrite reduce_get_app.
  - unfold setValue, setValue_with, getValue. rewrite split_dot_app.
    destruct (split_dot_cons q) as (k & r & ->).
    rewrite removelast_app_cons, last_app_cons. unfold bind.
    rewrite reduce_get_app. unfold bind.
    destruct (reduce_get proto_get (split_dot p) root s); done.
Qed.

(** ** The subscriber set of a slot across writes *)

(** C7, as amended: a value-changing write to a tracked slot, with a
    message that can be built and a new value that is a finite tree,
    never replaces the subscriber set of that slot.  The interception of
    the new value returns, the slot is still bound to the same set, the
    set still holds every earlier subscriber, and it is this set that the
    write notifies.  A set is replaced when the object holding its slot
    is intercepted again: outside a recording, every property of an
    object that is stored into a tracked slot is bound, once the write
    has intercepted the object, to a set created by this write, which is
    empty, whether the property was tracked before or not. *)
Theorem C7_write_keeps_subscriber_set
    (fuel : nat) (s s0 : state) (a : nat) (k : string) (d : nat) (newVal : value) :
  wf_heap s -> tracked s a k d ->
  strict_eq newVal (c_value (cell_of s d)) = false ->
  message proto_get native_call d newVal s = Ret tt s0 ->
  bounded fuel (written d newVal s0) newVal = true ->
  exists s2,
    observe proto_get fuel newVal (written d newVal s0) = Ret tt s2
    /\ tracked s2 a k d
    /\ subs_of s d `prefix_of` subs_of s2 d
    /\ reactive_set proto_get native_call (S fuel) d newVal s
       = notify proto_get native_call fuel d s2
    /\ (target s = None ->
        forall b, newVal = VObj b ->
        forall k', k' ∈ keys_of s b ->
          exists d', tracked s2 b k' d' /\ length (cells s) <= d'
                     /\ subs_of s2 d' = []).
Proof.
  intros W [Hp Hd] Hne Hm Hb.
  pose proof (message_read_only proto_get native_call d newVal s) as R.
  rewrite Hm in R. simpl in R.
  pose proof (wf_heap_read_only s s0 W R) as W0.
  pose proof R as (Hh&_&Ht0&_&_&Hl&Hsub).
  set (s1 := written d newVal s0) in *.
  assert (W1 : wf_heap s1) by (by apply wf_heap_written).
  assert (L1 : length (cells s1) = length (cells s)).
  { unfold s1, written, store, console_log. simpl. by rewrite length_alter. }
  destruct (observe_total proto_get fuel newVal s1 W1 Hb) as (s2 & E & T & _ & _).
  exists s2. split; [exact E|].
  assert (Hp1 : own_prop k (props_of s1 a) = Some (PAccessor d)).
  { change (props_of s1 a) with (props_of s0 a). unfold props_of in *. by rewrite Hh. }
  assert (Hk : k ∈ keys_of s1 a).
  { apply own_prop_Some_keys. by rewrite Hp1. }
  assert (Hc : child s1 a k = newVal).
  { unfold child. rewrite Hp1. simpl. apply c_value_written. lia. }
  pose proof (observe_spares_container proto_get fuel fuel s1 a k newVal s2 W1 Hk Hc E
                (Nat.le_refl _) Hb) as Hsame.
  split; [|split; [|split]].
  - split; [by rewrite Hsame|]. destruct T as (L&_). lia.
  - etrans; [apply (Hsub d)|].
    pose proof (observe_grows proto_get fuel newVal s1 tt s2 E) as [_ G].
    etrans; [|apply G]. unfold s1. by rewrite subs_of_written.
  - by eapply reactive_set_notifies.
  - intros Ht b -> k' Hk'.
    assert (Ht1 : target s1 = None) by (change (target s1) with (target s0); congruence).
    assert (Hk1 : k' ∈ keys_of s1 b).
    { change (keys_of s1 b) with (keys_of s0 b). unfold keys_of, props_of in *.
      by rewrite Hh. }
    destruct (observe_unrecorded fuel (VObj b) s1 tt s2 E Ht1) as (_ & _ & Em).
    destruct fuel as [|m]; [done|]. simpl in E.
    destruct (intercept_keys_renews m (observe_renews m) b (keys_of s1 b) s1 s2 W1)
      as (_ & Fr); [done|exact E|].
    destruct (Fr k' Hk1) as (d' & Hd' & Ld'). exists d'.
    split; [|split; [lia|apply Em; lia]].
    split; [done|]. destruct T as (_&_&_&_&_&W'). by eapply W'.
Qed.

End More.

(** * The further properties on concrete data *)

Lemma path_access_on_missing_root_witness :
  getValue es_proto VUndef "a.b" ex_ab = Throw TypeError ex_ab
  /\ setValue es_proto es_native 0 VUndef "a.b" (VNum 1) ex_ab = Throw TypeError ex_ab.
Proof.
  apply (path_access_on_missing_root es_proto es_native 0 VUndef "a.b" (VNum 1) ex_ab).
  left. reflexivity.
Defined.

Lemma getValue_result_independent_witness :
  result_of (getValue es_proto (VObj 0) "a.b" ex_ab_tracked)
  = result_of (getValue es_proto (VObj 0) "a.b" (with_target (Some 7) ex_ab_watched)).
Proof.
  apply (getValue_result_independent es_proto (VObj 0) "a.b" ex_ab_tracked
           (with_target (Some 7) ex_ab_watched)).
  split; [by_computation|]. intros d. destruct d as [|[|d]]; by_computation.
Defined.

Lemma setValue_untracked_key_witness :
  exists s',
    setValue es_proto es_native 0 (VObj 0) "a.z" (VNum 9) ex_ab_tracked = Ret tt s'
    /\ cells s' = cells ex_ab_tracked /\ calls s' = calls ex_ab_tracked
    /\ console s' = console ex_ab_tracked
    /\ own_prop "z" (props_of s' 1) = Some (PData (VNum 9))
    /\ (forall k', k' <> "z" ->
          own_prop k' (props_of s' 1) = own_prop k' (props_of ex_ab_tracked 1))
    /\ (forall b, b <> 1 -> props_of s' b = props_of ex_ab_tracked b)
    /\ get_prop es_proto (VObj 1) "z" s' = Ret (VNum 9) s'.
Proof.
  apply (setValue_untracked_key es_proto es_native 0 (VObj 0) "a.z" (VNum 9)
           ex_ab_tracked ex_ab_tracked 1).
  - by_computation.
  - vm_compute. lia.
  - intros d. vm_compute. discriminate.
  - intros _. by_computation.
Defined.

Lemma Watcher_new_effects_witness :
  0 = length (watchers ex_ab_tracked)
  /\ watchers ex_ab_watched = (watchers ex_ab_tracked ++ [Watcher (VObj 0) "a.b" []])%list
  /\ target ex_ab_watched = None
  /\ heap ex_ab_watched = heap ex_ab_tracked
  /\ calls ex_ab_watched = calls ex_ab_tracked
  /\ console ex_ab_watched = console ex_ab_tracked
  /\ length (cells ex_ab_watched) = length (cells ex_ab_tracked)
  /\ (forall d, c_value (cell_of ex_ab_watched d) = c_value (cell_of ex_ab_tracked d))
  /\ adds_only 0 ex_ab_tracked ex_ab_watched.
Proof.
  apply (Watcher_new_effects es_proto (VObj 0) "a.b" [] ex_ab_tracked 0 ex_ab_watched).
  by_computation.
Defined.

Lemma write_with_reading_callbacks_witness :
  reactive_set es_proto es_native 3 1 (VNum 5) ex_bound =
  Ret tt (with_calls (calls ex_bound
                      ++ reports es_proto (written 1 (VNum 5) ex_bound) (subs_of ex_bound 1))
            (written 1 (VNum 5) ex_bound)).
Proof.
  apply (write_with_reading_callbacks es_proto es_native 3 ex_bound 1 (VNum 5)).
  - by_computation.
  - by_computation.
  - by_computation.
  - intros a. discriminate.
  - change (subs_of ex_bound 1) with [0]. intros w Hw.
    apply list_elem_of_singleton in Hw. subst w. split.
    + exists (Watcher (VObj 0) "a.b" [ARead (VObj 0) "a.b"]). split; [by_computation|].
      constructor; [|constructor].
      exists (VObj 0), "a.b". split; [reflexivity|].
      exists (VNum 5), (written 1 (VNum 5) ex_bound). by_computation.
    + exists (VNum 5). by_computation.
  - vm_compute. lia.
Defined.

(** The slot [a] has the subscribers [0], [1] and [2]; the write of
    [null] calls the reader [0], fails in the update of [1], whose path
    [a.b] no longer resolves, and never reaches [2]. *)
Lemma write_aborted_by_failing_update_witness :
  subs_of ex_three 0 = [0; 1; 2]
  /\ reactive_set es_proto es_native 3 0 VNull ex_three =
     Throw TypeError
       (with_calls (calls ex_three ++ reports es_proto (written 0 VNull ex_three) [0])
          (written 0 VNull ex_three))
  /\ reports es_proto (written 0 VNull ex_three) [0] = [(0, VNull)].
Proof.
  split; [by_computation|]. split; [|by_computation].
  apply (write_aborted_by_failing_update es_proto es_native 3 ex_three 0 VNull
           [0] 1 [2] (Watcher (VObj 0) "a.b" [])).
  - by_computation.
  - by_computation.
  - by_computation.
  - intros a. discriminate.
  - by_computation.
  - intros w' Hw'. apply list_elem_of_singleton in Hw'. subst w'. split.
    + exists (Watcher (VObj 0) "a" [ARead (VObj 0) "a"]). split; [by_computation|].
      constructor; [|constructor].
      exists (VObj 0), "a". split; [reflexivity|].
      exists VNull, (written 0 VNull ex_three). by_computation.
    + exists VNull. by_computation.
  - by_computation.
  - by_computation.
  - vm_compute. lia.
Defined.

Lemma bindModel_outcome_witness :
  target ex_bound = None /\ resolves es_proto ex_bound (VObj 0) "a.b".
Proof.
  assert (E : bindModel es_proto (VObj 0) "a.b" ex_ab_tracked = Ret 0 ex_bound)
    by by_computation.
  pose proof (bindModel_outcome es_proto (VObj 0) "a.b" ex_ab_tracked eq_refl) as H.
  rewrite E in H. destruct H as (_ & _ & Ht & _ & _ & _ & _ & _ & Hr).
  split; [exact Ht | exact Hr].
Defined.

(** The slot [b] has the watcher [0] already; the binding adds the
    watcher [1], and the event calls both, each once. *)
Lemma v_model_round_trip_witness :
  subs_of ex_bound_watched 1 = [0; 1]
  /\ exists s',
    on_input es_proto es_native 4 (VObj 0) "a.b" "hi" ex_bound_watched = Ret tt s'
    /\ getValue es_proto (VObj 0) "a.b" s' = Ret (VStr "hi") s'
    /\ count_calls 1 (new_calls ex_bound_watched s') = 1
    /\ (1, VStr "hi") ∈ new_calls ex_bound_watched s'
    /\ on_input es_proto es_native 4 (VObj 0) "a.b" "hi" s' = Ret tt s'.
Proof.
  split; [by_computation|].
  apply (v_model_round_trip es_proto es_native 4 (VObj 0) "a.b" "hi"
           ex_ab_watched ex_bound_watched 1 1 1).
  - by_computation.
  - by_computation.
  - by_computation.
  - split; [by_computation | vm_compute; lia].
  - by_computation.
  - by_computation.
  - change (subs_of ex_ab_watched 1) with [0]. apply NoDup_singleton.
  - change (subs_of ex_ab_watched 1) with [0]. intros w' Hw'.
    apply list_elem_of_singleton in Hw'. subst w'. split.
    + exists (Watcher (VObj 0) "a.b" []). split; [by_computation|]. constructor.
    + exists (VStr "hi"). by_computation.
  - by_computation.
  - vm_compute. lia.
Defined.

Lemma observe_returns_silent_witness :
  silent ex_ab ex_ab_tracked.
Proof.
  apply (observe_returns_silent es_proto 2 (VObj 0) ex_ab ex_ab_tracked).
  by_computation.
Defined.

Lemma observe_keeps_reads_witness :
  exists s',
    observe es_proto 2 (VObj 0) ex_ab = Ret tt s'
    /\ (forall a, keys_of s' a = keys_of ex_ab a)
    /\ forall data path,
         result_of (getValue es_proto data path s')
         = result_of (getValue es_proto data path ex_ab).
Proof.
  apply (observe_keeps_reads es_proto 2 (VObj 0) ex_ab).
  - apply wf_heapb_sound. by_computation.
  - by_computation.
Defined.

Lemma observe_self_reference_witness :
  observe es_proto 50 (VObj 0) ex_self = OutOfFuel.
Proof.
  apply (observe_self_reference es_proto 50 ex_self 0 "self").
  - apply wf_heapb_sound. by_computation.
  - vm_compute. apply list_elem_of_here.
  - by_computation.
Defined.

Lemma observe_renews_subscriber_sets_witness :
  exists s',
    observe es_proto 2 (VObj 0) ex_ab_watched = Ret tt s'
    /\ cells ex_ab_watched `prefix_of` cells s'
    /\ forall k, k ∈ keys_of ex_ab_watched 0 ->
         exists d, tracked s' 0 k d /\ length (cells ex_ab_watched) <= d
                   /\ subs_of s' d = [].
Proof.
  apply (observe_renews_subscriber_sets es_proto 2 ex_ab_watched 0).
  - apply wf_heapb_sound. by_computation.
  - by_computation.
  - by_computation.
Defined.

(** C7, counterexample: the slot [x] of the object [root.a] has a set
    holding the watcher on [a.x].  Storing that object into the tracked
    slot [b] intercepts it again: the slot [x] gets a new, empty set, and
    the next write to [a.x] calls no callback. *)
Lemma C7_counterexample :
  tracked ex_alias 1 "x" 1 /\ subs_of ex_alias 1 = [0]
  /\ exists s',
       assign es_proto es_native 5 (VObj 0) "b" (VObj 1) ex_alias = Ret tt s'
       /\ tracked s' 1 "x" 3 /\ subs_of s' 3 = []
       /\ exists s'',
            setValue es_proto es_native 5 (VObj 0) "a.x" (VNum 2) s' = Ret tt s''
            /\ getValue es_proto (VObj 0) "a.x" s'' = Ret (VNum 2) s''
            /\ new_calls s' s'' = [].
Proof.
  split; [split; [by_computation | vm_compute; lia]|]. split; [by_computation|].
  exists (run (assign es_proto es_native 5 (VObj 0) "b" (VObj 1)) ex_alias).
  split; [by_computation|]. split; [split; [by_computation | vm_compute; lia]|].
  split; [by_computation|].
  exists (run (setValue es_proto es_native 5 (VObj 0) "a.x" (VNum 2))
            (run (assign es_proto es_native 5 (VObj 0) "b" (VObj 1)) ex_alias)).
  split; [by_computation|]. split; by_computation.
Qed.

(** The slot [b] has the watcher [1] in its set, and the slot [x] of the
    object [root.a] the watcher [0].  The write of that object to [b]
    keeps the set of [b] and gives [x] a new, empty one. *)
Lemma C7_witness :
  subs_of ex_alias_watched 2 = [1] /\ subs_of ex_alias_watched 1 = [0]
  /\ exists s2,
    observe es_proto 2 (VObj 1) (written 2 (VObj 1) ex_alias_watched) = Ret tt s2
    /\ tracked s2 0 "b" 2
    /\ subs_of ex_alias_watched 2 `prefix_of` subs_of s2 2
    /\ reactive_set es_proto es_native 3 2 (VObj 1) ex_alias_watched
       = notify es_proto es_native 2 2 s2
    /\ (target ex_alias_watched = None ->
        forall b, VObj 1 = VObj b ->
        forall k', k' ∈ keys_of ex_alias_watched b ->
          exists d', tracked s2 b k' d' /\ length (cells ex_alias_watched) <= d'
                     /\ subs_of s2 d' = []).
Proof.
  split; [by_computation|]. split; [by_computation|].
  apply (C7_write_keeps_subscriber_set es_proto es_native 2
           ex_alias_watched ex_alias_watched 0 "b" 2 (VObj 1)).
  - apply wf_heapb_sound. by_computation.
  - split; [by_computation | vm_compute; lia].
  - by_computation.
  - by_computation.
  - by_computation.
Defined.
